(** * live-audio-js: the Controller / Output lifecycle

    A shallow embedding of the [Controller] class and of the
    [getSharedAudioContext] provider, as they are written in the two
    revisions of [Live/Audio/Controller.js] that the repository holds:

    - [VisualizerRevision]: the revision with [enableVisualization] and
      [disableVisualization] (src/Live/Audio/Controller.js);
    - [AnalysisSetterRevision]: the revision with the [analysis] setter, whose
      [acquireOutput] re-attaches the analysis node (src/unnamed/part_000).

    JavaScript numbers are binary64 floats ([PrimFloat.float]); the sound
    registry is a JavaScript object (own properties over a prototype);
    [async] methods are threads of continuations that a scheduler resumes,
    one [await] at a time.  The read-only getters are not part of the
    embedding. *)

From Stdlib Require Import Floats.
From stdpp Require Import gmap strings list sorting.

(** ** JavaScript values *)

(** The values a caller can hand to the Controller.  An object (or function)
    is known by its identity; what its properties hold is the host's
    business, see [Host]. *)
Inductive value :=
| VUndefined
| VNull
| VBool (b : bool)
| VNumber (x : float)
| VString (s : string)
| VObject (id : nat).

(** ToBoolean: [undefined], [null], [false], [+0], [-0], [NaN] and the empty
    string are falsy, everything else is truthy. *)
Definition truthy (v : value) : bool :=
  match v with
  | VUndefined | VNull => false
  | VBool b => b
  | VNumber x => negb (PrimFloat.eqb x 0%float || PrimFloat.is_nan x)
  | VString s => negb (String.eqb s "")
  | VObject _ => true
  end.

Inductive error :=
| TypeError (message : string)
| HostError (code : nat).

(** ** The host environment *)

(** What the embedding reads from the JavaScript heap it does not own. *)
Record Host := {
  (** [v[name]] for a value that is not the registry: the property found on
      the object or along its prototype chain, [VUndefined] when none *)
  host_get : value -> string -> value;
  (** whether a value can be called *)
  callable : value -> bool;
  (** whether [__proto__] resolves, through this prototype, to the accessor
      of [Object.prototype] *)
  has_proto_accessor : value -> bool;
  (** [new Visualizer(audioContext)]: the node, or the error it throws *)
  new_Visualizer : nat -> value + error
}.

(** ** JavaScript objects used as maps *)

Record JSObject := {
  own : gmap string value;
  (** the names of the own properties, in the order of their creation *)
  created : list string;
  proto : value
}.

Definition is_object (v : value) : bool :=
  match v with VObject _ => true | _ => false end.

Definition via_proto_accessor (H : Host) (o : JSObject) (name : string) : bool :=
  bool_decide (name = "__proto__") && is_object (proto o) && has_proto_accessor H (proto o).

(** [o[name]]: the own property, else what the prototype chain gives. *)
Definition js_get (H : Host) (o : JSObject) (name : string) : value :=
  match own o !! name with
  | Some v => v
  | None =>
      if via_proto_accessor H o name then proto o
      else if is_object (proto o) then host_get H (proto o) name
      else VUndefined
  end.

(** [o[name] = v]: an own property is written or created, except that
    [__proto__], when it reaches the accessor, replaces the prototype (by an
    object or [null]; other values are ignored). *)
Definition js_set (H : Host) (name : string) (v : value) (o : JSObject) : JSObject :=
  match own o !! name with
  | Some _ => {| own := <[name := v]> (own o); created := created o; proto := proto o |}
  | None =>
      if via_proto_accessor H o name then
        match v with
        | VObject _ | VNull => {| own := own o; created := created o; proto := v |}
        | _ => o
        end
      else {| own := <[name := v]> (own o); created := created o ++ [name];
              proto := proto o |}
  end.

(** [delete o[name]] *)
Definition js_delete (name : string) (o : JSObject) : JSObject :=
  {| own := delete name (own o);
     created := filter (λ other, other ≠ name) (created o);
     proto := proto o |}.

(** [Object.keys(o)]: the names of the own properties.  Their order is not
    the order of insertion here; only membership is meant. *)
Definition Object_keys (o : JSObject) : list string :=
  elements (dom (own o)).

(** [Object.prototype] and the literal [{}] *)
Definition Object_prototype : value := VObject 0.

Definition empty_object : JSObject :=
  {| own := ∅; created := []; proto := Object_prototype |}.

(** ** Audio contexts and outputs *)

Inductive ctx_state := running | suspended | closed.

(** [window.AudioContext || window.webkitAudioContext] under [new]. *)
Inductive ctor_behaviour :=
| CtorAbsent
| CtorThrows (e : error)
| CtorCreates (initial : ctx_state).

(** Modelled from the spec: [Live/Audio/Output.js] is not among the sources.
    An Output is built from a ready context, owns a gain and an optional
    analysis tap; [setVolume] passes the value to the gain at once,
    [connectAnalysis] replaces any prior attachment and [disconnectAnalysis]
    removes it. *)
Record Output := {
  audioContext : nat;
  gain : float;
  analysisNode : value
}.

(** Modelled from the spec: [new Output(audioContext)]; the gain starts at
    the default of a gain node, and [acquireOutput] sets it at once. *)
Definition new_Output (context : nat) : Output :=
  {| audioContext := context; gain := 1%float; analysisNode := VNull |}.

(** Modelled from the spec: [Output.setVolume(v)] sets the gain value
    immediately, the value passed through. *)
Definition Output_setVolume (v : float) (o : Output) : Output :=
  {| audioContext := audioContext o; gain := v; analysisNode := analysisNode o |}.

(** Modelled from the spec: [Output.connectAnalysis(node)] attaches the tap
    and replaces any prior attachment. *)
Definition Output_connectAnalysis (node : value) (o : Output) : Output :=
  {| audioContext := audioContext o; gain := gain o; analysisNode := node |}.

(** Modelled from the spec: [Output.disconnectAnalysis()] removes the tap,
    a no-op when none is attached. *)
Definition Output_disconnectAnalysis (o : Output) : Output :=
  {| audioContext := audioContext o; gain := gain o; analysisNode := VNull |}.

(** ** The Controller *)

Inductive revision := VisualizerRevision | AnalysisSetterRevision.

(** The private fields ([#audioContext] is never read or written; [#window]
    is the window of the [world] below). *)
Record Controller := {
  klass : revision;
  c_output : option nat;
  c_analysis : value;
  c_sounds : JSObject;
  c_volume : float
}.

(** [new Controller(window)] *)
Definition new_Controller (rev : revision) : Controller :=
  {| klass := rev;
     c_output := None;
     c_analysis := VNull;
     c_sounds := empty_object;
     c_volume := 1%float |}.

(** ** The world: host, window, heaps, one Controller and what was observed *)

Inductive event :=
| EvFetch                                     (* getSharedAudioContext entered *)
| EvNewContext (context : nat)                (* new AudioContext(...) *)
| EvResume (context : nat)                    (* audioContext.resume() *)
| EvLog (context : nat)                       (* console.log *)
| EvNewOutput (output context : nat)          (* new Output(audioContext) *)
| EvSetVolume (output : nat) (v : float)      (* output.setVolume(v) *)
| EvConnectAnalysis (output : nat) (node : value)
| EvDisconnectAnalysis (output : nat)
| EvInvoke (receiver : value) (method : string) (argument : option nat)
| EvWarn (name : string).                     (* console.warn *)

Record world := {
  host : Host;
  liveAudioContext : option nat;     (* window['_liveAudioContext'] *)
  AudioContext_ctor : ctor_behaviour;
  contexts : list ctx_state;
  outputs : list Output;
  ctl : Controller;
  trace : list event
}.

Definition emit (e : event) (w : world) : world :=
  {| host := host w; liveAudioContext := liveAudioContext w;
     AudioContext_ctor := AudioContext_ctor w; contexts := contexts w;
     outputs := outputs w; ctl := ctl w; trace := trace w ++ [e] |}.

Definition with_ctl (c : Controller) (w : world) : world :=
  {| host := host w; liveAudioContext := liveAudioContext w;
     AudioContext_ctor := AudioContext_ctor w; contexts := contexts w;
     outputs := outputs w; ctl := c; trace := trace w |}.

Definition with_outputs (os : list Output) (w : world) : world :=
  {| host := host w; liveAudioContext := liveAudioContext w;
     AudioContext_ctor := AudioContext_ctor w; contexts := contexts w;
     outputs := os; ctl := ctl w; trace := trace w |}.

Definition with_contexts (cs : list ctx_state) (w : world) : world :=
  {| host := host w; liveAudioContext := liveAudioContext w;
     AudioContext_ctor := AudioContext_ctor w; contexts := cs;
     outputs := outputs w; ctl := ctl w; trace := trace w |}.

Definition with_liveAudioContext (slot : option nat) (w : world) : world :=
  {| host := host w; liveAudioContext := slot;
     AudioContext_ctor := AudioContext_ctor w; contexts := contexts w;
     outputs := outputs w; ctl := ctl w; trace := trace w |}.

Definition with_ctor (b : ctor_behaviour) (w : world) : world :=
  {| host := host w; liveAudioContext := liveAudioContext w;
     AudioContext_ctor := b; contexts := contexts w;
     outputs := outputs w; ctl := ctl w; trace := trace w |}.

Definition upd_output (o : option nat) (c : Controller) : Controller :=
  {| klass := klass c; c_output := o; c_analysis := c_analysis c;
     c_sounds := c_sounds c; c_volume := c_volume c |}.

Definition upd_analysis (node : value) (c : Controller) : Controller :=
  {| klass := klass c; c_output := c_output c; c_analysis := node;
     c_sounds := c_sounds c; c_volume := c_volume c |}.

Definition upd_sounds (s : JSObject) (c : Controller) : Controller :=
  {| klass := klass c; c_output := c_output c; c_analysis := c_analysis c;
     c_sounds := s; c_volume := c_volume c |}.

Definition upd_volume (v : float) (c : Controller) : Controller :=
  {| klass := klass c; c_output := c_output c; c_analysis := c_analysis c;
     c_sounds := c_sounds c; c_volume := v |}.

(** Calls on an Output, by identity. *)
Definition output_setVolume (o : nat) (v : float) (w : world) : world :=
  emit (EvSetVolume o v) (with_outputs (alter (Output_setVolume v) o (outputs w)) w).

Definition output_connectAnalysis (o : nat) (node : value) (w : world) : world :=
  emit (EvConnectAnalysis o node)
    (with_outputs (alter (Output_connectAnalysis node) o (outputs w)) w).

Definition output_disconnectAnalysis (o : nat) (w : world) : world :=
  emit (EvDisconnectAnalysis o)
    (with_outputs (alter Output_disconnectAnalysis o (outputs w)) w).

(** ** Results of calls *)

Inductive jsresult :=
| RUndefined
| RNull
| ROutput (o : nat)
| RBool (b : bool)
| RValue (v : value)
| RNames (names : list string).

(** How a call, or the promise of an [async] call, ends. *)
Inductive settled (A : Type) :=
| Resolved (a : A)
| Rejected (e : error).
Arguments Resolved {A} a.
Arguments Rejected {A} e.

(** Modelled from the spec: [Live/Audio/Sound.js] is not among the sources;
    a Sound is any object exposing [play(output)] and [stop()], an external
    collaborator.  [receiver.method(argument)]: the method is looked up and
    called; what it does is the collaborator's business, the call is
    recorded.  Calling what is not a function throws. *)
Definition invoke (receiver : value) (method : string) (argument : option nat)
    (w : world) : world * settled jsresult :=
  if callable (host w) (host_get (host w) receiver method)
  then (emit (EvInvoke receiver method argument) w, Resolved RUndefined)
  else (w, Rejected (TypeError "not a function")).

(** ** Synchronous methods *)

(** [addSound(name, value)]: [this.#sounds[name] = value; return value]. *)
Definition addSound (name : string) (v : value) (w : world) : world * value :=
  (with_ctl (upd_sounds (js_set (host w) name v (c_sounds (ctl w))) (ctl w)) w, v).

(** [getSound(name)]: [return this.#sounds[name]]. *)
Definition getSound (name : string) (w : world) : value :=
  js_get (host w) (c_sounds (ctl w)) name.

(** [listSounds()]: [return Object.keys(this.#sounds)]. *)
Definition listSounds (w : world) : list string :=
  Object_keys (c_sounds (ctl w)).

(** [removeSound(name)]:
    [if (this.#sounds[name]) { delete this.#sounds[name]; return true; }
     return false]. *)
Definition removeSound (name : string) (w : world) : world * bool :=
  if truthy (js_get (host w) (c_sounds (ctl w)) name)
  then (with_ctl (upd_sounds (js_delete name (c_sounds (ctl w))) (ctl w)) w, true)
  else (w, false).

(** [stopSound(name)]: [sound.stop()] if [this.#sounds[name]] is truthy,
    else [console.warn]. *)
Definition stopSound (name : string) (w : world) : world * settled jsresult :=
  let sound := js_get (host w) (c_sounds (ctl w)) name in
  if truthy sound then invoke sound "stop" None w
  else (emit (EvWarn name) w, Resolved RUndefined).

(** [set analysis(analysisNode)], a method of [AnalysisSetterRevision] only:
    [this.#analysis = analysisNode;
     if (this.#output) this.#output.connectAnalysis(this.#analysis)].
    The other revision has the getter alone, and assigning throws there (the
    class is strict code). *)
Definition analysis_setter (analysisNode : value) (w : world) : world * settled jsresult :=
  match klass (ctl w) with
  | VisualizerRevision => (w, Rejected (TypeError "analysis has only a getter"))
  | AnalysisSetterRevision =>
      let w1 := with_ctl (upd_analysis analysisNode (ctl w)) w in
      match c_output (ctl w1) with
      | Some o => (output_connectAnalysis o (c_analysis (ctl w1)) w1, Resolved RUndefined)
      | None => (w1, Resolved RUndefined)
      end
  end.

(** [disableVisualization()], a method of [VisualizerRevision] only:
    [if (this.#output) this.#output.disconnectAnalysis()]. *)
Definition disableVisualization (w : world) : world * settled jsresult :=
  match klass (ctl w) with
  | AnalysisSetterRevision => (w, Rejected (TypeError "not a function"))
  | VisualizerRevision =>
      match c_output (ctl w) with
      | Some o => (output_disconnectAnalysis o w, Resolved RUndefined)
      | None => (w, Resolved RUndefined)
      end
  end.

(** ** The provider: [getSharedAudioContext] *)

(** Where the provider stands when it first gives control back: suspended at
    [await audioContext.resume()], or with its promise settled. *)
Inductive provider :=
| ProviderAwaitsResume (context : nat)
| ProviderSettled (r : settled (option nat)).

(** [window[contextKey] = audioContext; console.log(...)] *)
Definition publish (context : nat) (w : world) : world :=
  emit (EvLog context) (with_liveAudioContext (Some context) w).

(** The body of [if (!audioContext || audioContext.state === 'closed')]:
    [new (window.AudioContext || window.webkitAudioContext)(...)], which may
    throw; then [await audioContext.resume()] if the new context is
    suspended; then the context is published.  An exception in an [async]
    function rejects its promise. *)
Definition create_context (w : world) : world * provider :=
  match AudioContext_ctor w with
  | CtorAbsent => (w, ProviderSettled (Rejected (TypeError "not a constructor")))
  | CtorThrows e => (w, ProviderSettled (Rejected e))
  | CtorCreates initial =>
      let context := length (contexts w) in
      let w1 := emit (EvNewContext context) (with_contexts (contexts w ++ [initial]) w) in
      match initial with
      | suspended => (emit (EvResume context) w1, ProviderAwaitsResume context)
      | _ => (publish context w1, ProviderSettled (Resolved (Some context)))
      end
  end.

(** [getSharedAudioContext(window)], up to its first await or its return:
    the cached context is returned as it is unless absent or closed. *)
Definition getSharedAudioContext (w : world) : world * provider :=
  let w0 := emit EvFetch w in
  match liveAudioContext w0 with
  | Some context =>
      match contexts w0 !! context with
      | Some closed => create_context w0
      | _ => (w0, ProviderSettled (Resolved (Some context)))
      end
  | None => create_context w0
  end.

(** The provider after [resume()] has resolved. *)
Definition provider_resumed (context : nat) (w : world) : world * settled (option nat) :=
  (publish context (with_contexts (<[context := running]> (contexts w)) w),
   Resolved (Some context)).

(** ** Asynchronous methods *)

(** A method suspended at its [await this.acquireOutput()]. *)
Inductive awaiter :=
| InPlaySound (sound : value)
| InSetVolume (volume : float)
| InEnableVisualization.

(** Who called [acquireOutput]: the page, or one of the methods. *)
Inductive caller :=
| Direct
| Via (a : awaiter).

(** A call of an [async] method: suspended at one of its awaits, or done.
    [AwaitResume]: the provider awaits [audioContext.resume()];
    [AwaitContext]: the provider's promise has settled and [acquireOutput]
    waits to be resumed; [AwaitOutput]: the promise of [acquireOutput] has
    settled and the method that awaits it waits to be resumed. *)
Inductive thread :=
| AwaitResume (context : nat) (k : caller)
| AwaitContext (r : settled (option nat)) (k : caller)
| AwaitOutput (r : settled (option nat)) (a : awaiter)
| Done (r : settled jsresult).

(** [acquireOutput] after [await getSharedAudioContext(this.#window)]:
    [if (!audioContext) return null;
     this.#output = output = new Output(audioContext);
     output.setVolume(this.#volume);]
    and, in [AnalysisSetterRevision],
    [if (this.#analysis) output.connectAnalysis(this.#analysis);]
    then [return output].  A rejection of the awaited promise is rethrown. *)
Definition acquireOutput_continue (r : settled (option nat)) (w : world)
    : world * settled (option nat) :=
  match r with
  | Rejected e => (w, Rejected e)
  | Resolved None => (w, Resolved None)
  | Resolved (Some context) =>
      let o := length (outputs w) in
      let w1 := emit (EvNewOutput o context)
                  (with_outputs (outputs w ++ [new_Output context]) w) in
      let w2 := with_ctl (upd_output (Some o) (ctl w1)) w1 in
      let w3 := output_setVolume o (c_volume (ctl w2)) w2 in
      let w4 := match klass (ctl w3) with
                | AnalysisSetterRevision =>
                    if truthy (c_analysis (ctl w3))
                    then output_connectAnalysis o (c_analysis (ctl w3)) w3
                    else w3
                | VisualizerRevision => w3
                end in
      (w4, Resolved (Some o))
  end.

(** The promise of [acquireOutput] settles: a direct call is done, a method
    that awaits it is resumed a tick later. *)
Definition acquired (k : caller) (r : settled (option nat)) : thread :=
  match k with
  | Direct =>
      Done match r with
           | Resolved (Some o) => Resolved (ROutput o)
           | Resolved None => Resolved RNull
           | Rejected e => Rejected e
           end
  | Via a => AwaitOutput r a
  end.

(** [acquireOutput()], up to its first await or its return:
    [let output = this.#output; if (!output) { ... await ... } return output].
    The await gives control back even when the provider has settled. *)
Definition acquireOutput (k : caller) (w : world) : world * thread :=
  match c_output (ctl w) with
  | Some o => (w, acquired k (Resolved (Some o)))
  | None =>
      let '(w1, p) := getSharedAudioContext w in
      (w1, match p with
           | ProviderAwaitsResume context => AwaitResume context k
           | ProviderSettled r => AwaitContext r k
           end)
  end.

(** [enableVisualization] after [await this.acquireOutput()] gave an Output. *)
Definition enableVisualization_continue (o : nat) (w : world) : world * settled jsresult :=
  let context := default 0 (audioContext <$> outputs w !! o) in
  if truthy (c_analysis (ctl w))
  then (output_connectAnalysis o (c_analysis (ctl w)) w, Resolved RUndefined)
  else match new_Visualizer (host w) context with
       | inr _ => (emit (EvWarn "Live Audio: Visualization not available") w,
                   Resolved RUndefined)
       | inl node =>
           let w1 := with_ctl (upd_analysis node (ctl w)) w in
           (output_connectAnalysis o (c_analysis (ctl w1)) w1, Resolved RUndefined)
       end.

(** A method after its [await this.acquireOutput()]: [playSound] returns if
    there is no Output, else calls [sound.play(output)]; [setVolume] calls
    [output.setVolume(volume)] if there is an Output; a rejection is
    rethrown. *)
Definition awaiter_continue (a : awaiter) (r : settled (option nat)) (w : world)
    : world * settled jsresult :=
  match r with
  | Rejected e => (w, Rejected e)
  | Resolved None => (w, Resolved RUndefined)
  | Resolved (Some o) =>
      match a with
      | InPlaySound sound => invoke sound "play" (Some o) w
      | InSetVolume volume => (output_setVolume o volume w, Resolved RUndefined)
      | InEnableVisualization => enableVisualization_continue o w
      end
  end.

(** [playSound(name)], up to its await:
    [if (this.#volume <= 0) return;
     const sound = this.#sounds[name];
     if (sound) { const output = await this.acquireOutput(); ... }
     else { console.warn(...) }]. *)
Definition playSound (name : string) (w : world) : world * thread :=
  if PrimFloat.leb (c_volume (ctl w)) 0%float then (w, Done (Resolved RUndefined))
  else
    let sound := js_get (host w) (c_sounds (ctl w)) name in
    if truthy sound then acquireOutput (Via (InPlaySound sound)) w
    else (emit (EvWarn name) w, Done (Resolved RUndefined)).

(** [setVolume(volume)], up to its await:
    [this.#volume = volume; const output = await this.acquireOutput(); ...]. *)
Definition setVolume (volume : float) (w : world) : world * thread :=
  acquireOutput (Via (InSetVolume volume)) (with_ctl (upd_volume volume (ctl w)) w).

(** [enableVisualization()], a method of [VisualizerRevision] only. *)
Definition enableVisualization (w : world) : world * thread :=
  match klass (ctl w) with
  | VisualizerRevision => acquireOutput (Via InEnableVisualization) w
  | AnalysisSetterRevision => (w, Done (Rejected (TypeError "not a function")))
  end.

(** ** The machine: one event loop, calls interleaved at their awaits *)

Inductive operation :=
| OpAcquireOutput
| OpPlaySound (name : string)
| OpSetVolume (volume : float)
| OpEnableVisualization
| OpDisableVisualization
| OpAddSound (name : string) (v : value)
| OpGetSound (name : string)
| OpListSounds
| OpRemoveSound (name : string)
| OpStopSound (name : string)
| OpSetAnalysis (node : value).

Definition call (op : operation) (w : world) : world * thread :=
  match op with
  | OpAcquireOutput => acquireOutput Direct w
  | OpPlaySound name => playSound name w
  | OpSetVolume volume => setVolume volume w
  | OpEnableVisualization => enableVisualization w
  | OpDisableVisualization => let '(w1, r) := disableVisualization w in (w1, Done r)
  | OpAddSound name v => let '(w1, r) := addSound name v w in (w1, Done (Resolved (RValue r)))
  | OpGetSound name => (w, Done (Resolved (RValue (getSound name w))))
  | OpListSounds => (w, Done (Resolved (RNames (listSounds w))))
  | OpRemoveSound name => let '(w1, b) := removeSound name w in (w1, Done (Resolved (RBool b)))
  | OpStopSound name => let '(w1, r) := stopSound name w in (w1, Done r)
  | OpSetAnalysis node => let '(w1, r) := analysis_setter node w in (w1, Done r)
  end.

(** What can happen next: the page calls a method; a suspended call whose
    awaited promise has settled is resumed; the host settles a [resume()];
    the host changes what [new AudioContext] does or the state of a context. *)
Inductive action :=
| Call (op : operation)
| Tick (i : nat)
| ResumeResolves (i : nat)
| ResumeRejects (i : nat) (e : error)
| HostSetsCtor (b : ctor_behaviour)
| HostSetsState (context : nat) (s : ctx_state).

Record machine := {
  now : world;
  pool : list thread
}.

Definition step (a : action) (m : machine) : option machine :=
  match a with
  | Call op =>
      let '(w, t) := call op (now m) in
      Some {| now := w; pool := pool m ++ [t] |}
  | Tick i =>
      match pool m !! i with
      | Some (AwaitContext r k) =>
          let '(w, r1) := acquireOutput_continue r (now m) in
          Some {| now := w; pool := <[i := acquired k r1]> (pool m) |}
      | Some (AwaitOutput r a) =>
          let '(w, r1) := awaiter_continue a r (now m) in
          Some {| now := w; pool := <[i := Done r1]> (pool m) |}
      | _ => None
      end
  | ResumeResolves i =>
      match pool m !! i with
      | Some (AwaitResume context k) =>
          let '(w, r) := provider_resumed context (now m) in
          Some {| now := w; pool := <[i := AwaitContext r k]> (pool m) |}
      | _ => None
      end
  | ResumeRejects i e =>
      match pool m !! i with
      | Some (AwaitResume context k) =>
          Some {| now := now m; pool := <[i := AwaitContext (Rejected e) k]> (pool m) |}
      | _ => None
      end
  | HostSetsCtor b =>
      Some {| now := with_ctor b (now m); pool := pool m |}
  | HostSetsState context s =>
      Some {| now := with_contexts (<[context := s]> (contexts (now m))) (now m);
              pool := pool m |}
  end.

Fixpoint run (schedule : list action) (m : machine) : option machine :=
  match schedule with
  | [] => Some m
  | a :: rest =>
      match step a m with
      | Some m1 => run rest m1
      | None => None
      end
  end.

(** Counting what was observed. *)
Fixpoint count (p : event -> bool) (t : list event) : nat :=
  match t with
  | [] => 0
  | e :: rest => (if p e then 1 else 0) + count p rest
  end.

Definition is_fetch (e : event) : bool :=
  match e with EvFetch => true | _ => false end.

Definition is_new_output (e : event) : bool :=
  match e with EvNewOutput _ _ => true | _ => false end.

Definition is_play (e : event) : bool :=
  match e with EvInvoke _ method _ => String.eqb method "play" | _ => false end.

Definition fetches (w : world) : nat := count is_fetch (trace w).
Definition constructions (w : world) : nat := count is_new_output (trace w).
Definition plays (w : world) : nat := count is_play (trace w).

(** ** A standard host and a page like the one of the test suite *)

Definition Object_prototype_methods : list string :=
  ["constructor"; "hasOwnProperty"; "isPrototypeOf"; "propertyIsEnumerable";
   "toLocaleString"; "toString"; "valueOf";
   "__defineGetter__"; "__defineSetter__"; "__lookupGetter__"; "__lookupSetter__"].

(** Objects 0 and 1 are [Object.prototype] and one of its functions; object
    [2 * n + 10] is a Sound with callable [play] and [stop] (object 2);
    every other object is plain. *)
Definition standard_host : Host :=
  {| host_get := fun v name =>
       match v with
       | VObject 0 =>
           if bool_decide (name ∈ Object_prototype_methods) then VObject 1 else VUndefined
       | VObject id =>
           if Nat.even id && (10 <=? id)%nat
              && bool_decide (name ∈ ["play"; "stop"])
           then VObject 2
           else if bool_decide (name ∈ Object_prototype_methods) then VObject 1
           else VUndefined
       | _ => VUndefined
       end;
     callable := fun v => match v with VObject 1 | VObject 2 => true | _ => false end;
     has_proto_accessor := is_object;
     new_Visualizer := fun _ => inl (VObject 3) |}.

(** A page with a new Controller, nothing cached in the window yet. *)
Definition fresh_world (rev : revision) (b : ctor_behaviour) : world :=
  {| host := standard_host;
     liveAudioContext := None;
     AudioContext_ctor := b;
     contexts := [];
     outputs := [];
     ctl := new_Controller rev;
     trace := [] |}.

Definition boot (w : world) : machine := {| now := w; pool := [] |}.

(** * What the statements are about *)

(** ** Schedules *)

(** The machine a schedule leads to, from a world with no call in flight. *)
Definition after (schedule : list action) (w : world) : machine :=
  default (boot w) (run schedule (boot w)).

Definition is_call (a : action) : bool :=
  match a with Call _ => true | _ => false end.

Definition no_calls (schedule : list action) : bool :=
  forallb (λ a, negb (is_call a)) schedule.

(** ** A Sound, an analysis node, a muted Controller *)

Definition coin : value := VObject 10.

Definition visualizer : value := VObject 3.

(** A Controller after [setVolume(0)] was stored, with [coin] registered. *)
Definition muted_world : world :=
  let w := fst (addSound "coin" coin (fresh_world VisualizerRevision (CtorCreates running))) in
  with_ctl (upd_volume 0%float (ctl w)) w.

(** ** Threads *)

(** [playSound] attempts acquisition: it goes on as [acquireOutput] does, for
    the sound it found. *)
Definition playSound_acquires (name : string) (w : world) : Prop :=
  playSound name w
  = acquireOutput (Via (InPlaySound (getSound name w))) w.

Definition acquiring (t : thread) : bool :=
  match t with
  | AwaitResume _ _ | AwaitContext _ _ => true
  | _ => false
  end.

(** No call is inside [acquireOutput], between its test of [this.#output]
    and the assignment. *)
Definition quiet (p : list thread) : Prop :=
  Forall (λ t, acquiring t = false) p.

(** No thread carries an absent context or an absent Output. *)
Definition nonnull (t : thread) : Prop :=
  match t with
  | AwaitContext (Resolved None) _ | AwaitOutput (Resolved None) _
  | Done (Resolved RNull) => False
  | _ => True
  end.

(** A direct call of [acquireOutput]. *)
Definition direct (t : thread) : Prop :=
  match t with
  | AwaitResume _ Direct | AwaitContext _ Direct | Done _ => True
  | _ => False
  end.

Definition built (o : nat) : thread := Done (Resolved (ROutput o)).

Definition weight (t : thread) : nat :=
  match t with Done (Resolved (ROutput _)) => 1 | _ => 0 end.

Fixpoint total_weight (p : list thread) : nat :=
  match p with
  | [] => 0
  | t :: rest => weight t + total_weight rest
  end.

(** The Output a suspended or finished call holds. *)
Definition output_of (t : thread) : option nat :=
  match t with
  | AwaitOutput (Resolved (Some o)) _ => Some o
  | Done (Resolved (ROutput o)) => Some o
  | _ => None
  end.

(** The method that a thread will resume, if any. *)
Definition awaiter_of (t : thread) : option awaiter :=
  match t with
  | AwaitResume _ (Via a) | AwaitContext _ (Via a) | AwaitOutput _ a => Some a
  | _ => None
  end.

(** ** Concurrent acquisition *)

(** Calls of [acquireOutput()] that all found [this.#output] empty: each
    entered the provider once, each success built an Output of its own, and
    the Controller holds the one built last. *)
Record racing (f0 n0 : nat) (m : machine) : Prop := {
  racing_direct : Forall direct (pool m);
  racing_fetches : fetches (now m) = f0 + length (pool m);
  racing_constructions : constructions (now m) = n0 + total_weight (pool m);
  racing_live : ∀ i o, pool m !! i = Some (built o) -> o < length (outputs (now m));
  racing_distinct : ∀ i j o,
    pool m !! i = Some (built o) -> pool m !! j = Some (built o) -> i = j;
  racing_output :
    match c_output (ctl (now m)) with
    | None => total_weight (pool m) = 0
    | Some o => S o = length (outputs (now m)) ∧ ∃ i, pool m !! i = Some (built o)
    end
}.

(** ** The Outputs that calls hand out *)

Section Handed_out.
(** [good_world]: what holds of the Controller; [holds w o]: what holds of
    Output [o]; [good_awaiter]: which suspended methods may be around. *)
Variable good_world : world -> Prop.
Variable holds : world -> nat -> Prop.
Variable good_awaiter : awaiter -> Prop.

Definition kept (w w1 : world) : Prop := ∀ o, holds w o -> holds w1 o.

Definition good_thread (t : thread) : Prop :=
  ∀ a, awaiter_of t = Some a -> good_awaiter a.

Record handed_out (m : machine) : Prop := {
  handed_world : good_world (now m);
  handed_outputs : ∀ i t o, pool m !! i = Some t -> output_of t = Some o -> holds (now m) o;
  handed_threads : ∀ i t, pool m !! i = Some t -> good_thread t
}.

End Handed_out.

(** ** Volume and analysis node *)

Definition has_gain (v : float) (w : world) (o : nat) : Prop :=
  gain <$> outputs w !! o = Some v.

Definition tuned_world (v : float) (w : world) : Prop :=
  c_volume (ctl w) = v ∧ ∀ o, c_output (ctl w) = Some o -> has_gain v w o.

(** A suspended [setVolume] will apply [v], no other volume. *)
Definition applies (v : float) (a : awaiter) : Prop :=
  ∀ v1, a = InSetVolume v1 -> v1 = v.

Definition keeps_volume (v : float) (a : action) : Prop :=
  match a with Call (OpSetVolume v1) => v1 = v | _ => True end.

Definition tuned (v : float) : machine -> Prop :=
  handed_out (tuned_world v) (has_gain v) (applies v).

Definition has_node (node : value) (w : world) (o : nat) : Prop :=
  analysisNode <$> outputs w !! o = Some node.

Definition attached_world (node : value) (w : world) : Prop :=
  klass (ctl w) = AnalysisSetterRevision
  ∧ c_analysis (ctl w) = node
  ∧ truthy node = true
  ∧ ∀ o, c_output (ctl w) = Some o -> has_node node w o.

Definition not_visualizing (a : awaiter) : Prop := a ≠ InEnableVisualization.

Definition keeps_analysis (node : value) (a : action) : Prop :=
  match a with Call (OpSetAnalysis n1) => n1 = node | _ => True end.

Definition attached (node : value) : machine -> Prop :=
  handed_out (attached_world node) (has_node node) not_visualizing.

(** ** Disposal *)

Module Lifecycle.

(** Modelled from the spec: the lifecycle callbacks [onOutputCreated] and
    [onOutputDisposed], options of the constructor, are in neither revision
    of [Controller.js] among the sources; only the tests pass them.  Both
    are optional; a callback is recorded as an invocation, what it does is
    the caller's business. *)
Record options := {
  onOutputCreated : bool;
  onOutputDisposed : bool
}.

Inductive invocation :=
| OutputCreated (output : nat)
| OutputDisposed (output : nat).

Record state := {
  base : world;
  opts : options;
  invoked : list invocation
}.

(** Modelled from the spec: [dispose()] is in neither revision of
    [Controller.js] among the sources; only the tests call it.  The
    specification says: if an Output exists, [dispose()] invokes the "output
    disposed" callback (if registered) with (controller, output), then
    releases the Output reference; disposing twice or without an Output must
    not fail. *)
Definition dispose (s : state) : state * settled jsresult :=
  match c_output (ctl (base s)) with
  | Some o =>
      ({| base := with_ctl (upd_output None (ctl (base s))) (base s);
          opts := opts s;
          invoked := if onOutputDisposed (opts s)
                     then invoked s ++ [OutputDisposed o]
                     else invoked s |},
       Resolved RUndefined)
  | None => (s, Resolved RUndefined)
  end.

Fixpoint disposals (l : list invocation) : nat :=
  match l with
  | [] => 0
  | OutputDisposed _ :: rest => S (disposals rest)
  | OutputCreated _ :: rest => disposals rest
  end.

(** The callbacks a disposal owes: one when an Output is live and the
    callback is registered, none otherwise. *)
Definition owed (s : state) : nat :=
  match c_output (ctl (base s)) with
  | Some _ => if onOutputDisposed (opts s) then 1 else 0
  | None => 0
  end.

End Lifecycle.

(** * The rest of the Controller *)

(** ** [stopAllSounds] *)

(** A property name that is an array index: the decimal form, with no sign
    and no leading zero, of an integer below [2^32 - 1]. *)
Definition digit (c : Ascii.ascii) : option N :=
  let n := Ascii.N_of_ascii c in
  if ((48 <=? n) && (n <=? 57))%N then Some (n - 48)%N else None.

Fixpoint digits (s : string) (acc : N) : option N :=
  match s with
  | EmptyString => Some acc
  | String c rest =>
      match digit c with
      | Some d => digits rest (10 * acc + d)%N
      | None => None
      end
  end.

Definition array_index (name : string) : option N :=
  match name with
  | EmptyString => None
  | String c rest =>
      if (Ascii.N_of_ascii c =? 48)%N && negb (String.eqb rest EmptyString) then None
      else match digits name 0%N with
           | Some n => if (n <? 4294967295)%N then Some n else None
           | None => None
           end
  end.

Definition index_of (name : string) : N := default 0%N (array_index name).

(** Names in ascending order of their index. *)
Fixpoint insert_by_index (name : string) (l : list string) : list string :=
  match l with
  | [] => [name]
  | other :: rest =>
      if (index_of name <=? index_of other)%N then name :: l
      else other :: insert_by_index name rest
  end.

Definition by_index (l : list string) : list string := foldr insert_by_index [] l.

(** The order in which JavaScript lists the own properties of an object
    ([OrdinaryOwnPropertyKeys]): the array indices in ascending order, then
    the other names in the order of their creation. *)
Definition OwnPropertyKeys (o : JSObject) : list string :=
  by_index (filter (λ name, is_Some (array_index name)) (created o))
  ++ filter (λ name, ¬ is_Some (array_index name)) (created o).

(** [Object.values(o)]: the values of the own properties, in that order. *)
Definition Object_values (o : JSObject) : list value :=
  omap (λ name, own o !! name) (OwnPropertyKeys o).

(** The creation order lists the own properties, each once: so it is for
    [{}] and so it stays under assignment and [delete]. *)
Definition ordered (o : JSObject) : Prop :=
  NoDup (created o) ∧ ∀ name, name ∈ created o ↔ is_Some (own o !! name).

(** [sound.stop()] for any value: reading a property of [null] or
    [undefined] throws, otherwise the method is looked up and called. *)
Definition invoke_stop (sound : value) (w : world) : world * settled jsresult :=
  match sound with
  | VUndefined | VNull => (w, Rejected (TypeError "cannot read properties"))
  | _ => invoke sound "stop" None w
  end.

(** [values.forEach(sound => sound.stop())]: an exception ends the loop. *)
Fixpoint stop_each (values : list value) (w : world) : world * settled jsresult :=
  match values with
  | [] => (w, Resolved RUndefined)
  | sound :: rest =>
      match invoke_stop sound w with
      | (w1, Resolved _) => stop_each rest w1
      | (w1, Rejected e) => (w1, Rejected e)
      end
  end.

(** [stopAllSounds()]:
    [if (this.#sounds) Object.values(this.#sounds).forEach(sound => sound.stop())];
    [this.#sounds] is an object, hence truthy. *)
Definition stopAllSounds (w : world) : world * settled jsresult :=
  stop_each (Object_values (c_sounds (ctl w))) w.

(** A value on which [stop()] can be called. *)
Definition stoppable (H : Host) (v : value) : bool :=
  match v with
  | VUndefined | VNull => false
  | _ => callable H (host_get H v "stop")
  end.

Definition stop_event (v : value) : event := EvInvoke v "stop" None.

(** ** The registry *)

(** What [o[name]] gives when [o] has no own property [name]. *)
Definition inherited (H : Host) (o : JSObject) (name : string) : value :=
  js_get H {| own := ∅; created := []; proto := proto o |} name.

(** Several events, one after the other. *)
Definition emit_all (es : list event) (w : world) : world :=
  foldl (λ w0 e, emit e w0) w es.

(** A registry with two Sounds, [laser] added before [coin]; one with a
    [null] entry added before a Sound, and one with it added after. *)
Definition two_sounds : world :=
  fst (addSound "coin" coin
         (fst (addSound "laser" (VObject 12)
                 (fresh_world VisualizerRevision (CtorCreates running))))).

Definition null_entry : world :=
  fst (addSound "coin" coin
         (fst (addSound "mute" VNull (fresh_world VisualizerRevision (CtorCreates running))))).

Definition null_last : world :=
  fst (addSound "mute" VNull
         (fst (addSound "coin" coin (fresh_world VisualizerRevision (CtorCreates running))))).

(** Sounds under names some of which are array indices. *)
Definition numbered_sounds : world :=
  let w0 := fresh_world VisualizerRevision (CtorCreates running) in
  let w1 := fst (addSound "b" (VObject 12) w0) in
  let w2 := fst (addSound "10" (VObject 14) w1) in
  let w3 := fst (addSound "2" (VObject 16) w2) in
  fst (addSound "01" (VObject 18) w3).

(** ** The shared context *)

(** The host does not close context [c]. *)
Definition keeps_open (c : nat) (a : action) : Prop :=
  match a with HostSetsState c1 closed => c1 ≠ c | _ => True end.

(** The Outputs from index [n] on sit on context [c]. *)
Definition on_context (c n : nat) (l : list Output) : Prop :=
  n ≤ length l
  ∧ ∀ o, n ≤ o -> o < length l -> audioContext <$> l !! o = Some c.

(** Every call that is inside [acquireOutput] holds context [c]. *)
Definition holds_context (c : nat) (t : thread) : Prop :=
  match t with
  | AwaitResume _ _ => False
  | AwaitContext (Resolved (Some c1)) _ => c1 = c
  | _ => True
  end.

Record sharing (c n k : nat) (m : machine) : Prop := {
  sharing_slot : liveAudioContext (now m) = Some c;
  sharing_open : contexts (now m) !! c ≠ Some closed;
  sharing_count : length (contexts (now m)) = k;
  sharing_outputs : on_context c n (outputs (now m));
  sharing_threads : Forall (holds_context c) (pool m)
}.

(** What the host does before a new context is usable: it resolves the
    [resume()] of the one call in flight when the context starts suspended. *)
Definition settles (initial : ctx_state) : list action :=
  match initial with suspended => [ResumeResolves 0] | _ => [] end.

(** The state of a new context when the provider returns it. *)
Definition ready (initial : ctx_state) : ctx_state :=
  match initial with suspended => running | _ => initial end.

(** ** Failure and retry *)

(** The Controller, the Outputs and the window's cache are as they were. *)
Definition untouched (w w1 : world) : Prop :=
  ctl w1 = ctl w ∧ outputs w1 = outputs w ∧ liveAudioContext w1 = liveAudioContext w.

(** A call that has not obtained a context (yet, or at all). *)
Definition failing (t : thread) : bool :=
  match t with
  | AwaitResume _ _ | AwaitContext (Rejected _) _ | Done (Rejected _) => true
  | _ => false
  end.

(** ** References stay valid *)

(** Every Output of the list sits on one of the first [n] contexts. *)
Definition bounded (n : nat) (l : list Output) : Prop :=
  Forall (λ out, audioContext out < n) l.

(** The Controller's Output, the window's context and the contexts of the
    Outputs exist. *)
Definition live_world (w : world) : Prop :=
  (∀ o, c_output (ctl w) = Some o -> o < length (outputs w))
  ∧ (∀ c, liveAudioContext w = Some c -> c < length (contexts w))
  ∧ bounded (length (contexts w)) (outputs w).

(** The context or the Output that a call holds exists. *)
Definition live_thread (w : world) (t : thread) : Prop :=
  match t with
  | AwaitResume c _ | AwaitContext (Resolved (Some c)) _ => c < length (contexts w)
  | AwaitOutput (Resolved (Some o)) _ | Done (Resolved (ROutput o)) => o < length (outputs w)
  | _ => True
  end.

Definition grows (w w1 : world) : Prop :=
  length (outputs w) ≤ length (outputs w1) ∧ length (contexts w) ≤ length (contexts w1).

(** Nothing that the machine holds dangles. *)
Definition live (m : machine) : Prop :=
  live_world (now m) ∧ Forall (live_thread (now m)) (pool m).

(** ** Playing *)

(** [this.#volume <= 0] is false: the volume is positive, or not a number. *)
Definition audible (w : world) : Prop :=
  PrimFloat.leb (c_volume (ctl w)) 0%float = false.

(** [sound.play] can be called on what [this.#sounds[name]] gives. *)
Definition has_play (name : string) (w : world) : bool :=
  callable (host w) (host_get (host w) (getSound name w) "play").

Definition play_event (sound : value) (o : nat) : event := EvInvoke sound "play" (Some o).

(** A page that caches a running context, with a new Controller on which
    [coin] is registered. *)
Definition cached_world (rev : revision) : world :=
  let w := now (after [Call OpAcquireOutput; Tick 0] (fresh_world rev (CtorCreates running))) in
  fst (addSound "coin" coin (with_ctl (new_Controller rev) w)).

(** ** Visualization *)

Definition connect_event (o : nat) (node : value) : event := EvConnectAnalysis o node.

Definition unavailable : event := EvWarn "Live Audio: Visualization not available".

(** A host on which [new Visualizer(...)] throws. *)
Definition deaf_host : Host :=
  {| host_get := host_get standard_host;
     callable := callable standard_host;
     has_proto_accessor := has_proto_accessor standard_host;
     new_Visualizer := fun _ => inr (HostError 0) |}.

Definition with_host (H : Host) (w : world) : world :=
  {| host := H; liveAudioContext := liveAudioContext w;
     AudioContext_ctor := AudioContext_ctor w; contexts := contexts w;
     outputs := outputs w; ctl := ctl w; trace := trace w |}.

(** A Controller that has acquired its Output. *)
Definition ready_world (rev : revision) : world :=
  now (after [Call OpAcquireOutput; Tick 0] (fresh_world rev (CtorCreates running))).

(** ** What is never done *)

Definition is_disconnect (e : event) : bool :=
  match e with EvDisconnectAnalysis _ => true | _ => false end.

Definition disconnections (w : world) : nat := count is_disconnect (trace w).

(** ** Nodes of the test suite *)

Module Mock.

(** [MockAudioNode]: the destinations it is connected to, by identity, in
    the order of the calls of [connect]. *)
Record MockAudioNode := {
  connections : list nat
}.

(** [constructor() { this.connections = [] }] *)
Definition new_MockAudioNode : MockAudioNode := {| connections := [] |}.






End Mock.

(** * Properties *)

(** ** Basic facts *)

Lemma count_app p (t1 t2 : list event) : count p (t1 ++ t2) = count p t1 + count p t2.
Proof. induction t1 as [|e t1 IH]; simpl; [done | rewrite IH; lia]. Qed.

(** A schedule runs step by step. *)
Lemma run_cons (a : action) (rest : list action) (m m1 : machine) :
  run (a :: rest) m = Some m1 -> ∃ m0, step a m = Some m0 ∧ run rest m0 = Some m1.
Proof.
  simpl. destruct (step a m) as [m0|] eqn:Hstep; [| done]. intros Hrun. by exists m0.
Qed.

Lemma SF_positive_not_le_zero (x : spec_float) :
  SFltb (S754_zero false) x = true -> SFleb x (S754_zero false) = false.
Proof. destruct x as [s|s| |s m e]; try destruct s; cbn; congruence. Qed.

(** In binary64, [0 < x] excludes [x <= 0]. *)
Lemma positive_not_le_zero (x : float) :
  PrimFloat.ltb 0%float x = true -> PrimFloat.leb x 0%float = false.
Proof. rewrite ltb_spec, leb_spec. apply SF_positive_not_le_zero. Qed.

Lemma elem_of_Object_keys (o : JSObject) (name : string) :
  name ∈ Object_keys o ↔ is_Some (own o !! name).
Proof. unfold Object_keys. rewrite elem_of_elements. apply elem_of_dom. Qed.


(** ** The constructor *)

(** C10: a newly constructed Controller has stored volume exactly 1.0, which
    does not take the muted exit of [playSound], and an empty registry:
    [listSounds()] is the empty list. *)
Theorem new_Controller_defaults (rev : revision) (w : world) :
  c_volume (new_Controller rev) = 1%float
  ∧ PrimFloat.leb (c_volume (new_Controller rev)) 0%float = false
  ∧ c_output (new_Controller rev) = None
  ∧ listSounds (with_ctl (new_Controller rev) w) = [].
Proof.
  split; [reflexivity |]. split; [reflexivity |]. split; [reflexivity |].
  unfold listSounds, Object_keys, new_Controller, empty_object; simpl.
  rewrite dom_empty_L. apply elements_empty.
Qed.

(** ** The registry *)

Lemma removeSound_result (name : string) (w : world) :
  snd (removeSound name w) = truthy (getSound name w).
Proof. unfold removeSound, getSound. by destruct (truthy _). Qed.

Lemma removeSound_true (name : string) (w : world) :
  truthy (getSound name w) = true ->
  removeSound name w
  = (with_ctl (upd_sounds (js_delete name (c_sounds (ctl w))) (ctl w)) w, true).
Proof. unfold removeSound, getSound. by intros ->. Qed.


Lemma via_proto_accessor_other (H : Host) (o : JSObject) (name : string) :
  name ≠ "__proto__" -> via_proto_accessor H o name = false.
Proof. intros Hne. unfold via_proto_accessor. by rewrite bool_decide_eq_false_2. Qed.

(** Any name but [__proto__] is stored as an own property. *)
Lemma own_addSound (name : string) (v : value) (w : world) :
  name ≠ "__proto__" ->
  own (c_sounds (ctl (fst (addSound name v w)))) = <[name := v]> (own (c_sounds (ctl w))).
Proof.
  intros Hne. unfold addSound, js_set; simpl.
  rewrite via_proto_accessor_other by done.
  by destruct (own (c_sounds (ctl w)) !! name).
Qed.

Lemma getSound_addSound (name : string) (v : value) (w : world) :
  name ≠ "__proto__" -> getSound name (fst (addSound name v w)) = v.
Proof.
  intros Hne. unfold getSound, js_get.
  replace (host (fst (addSound name v w))) with (host w) by done.
  by rewrite own_addSound, lookup_insert_eq.
Qed.




(** A name that [Object.prototype] defines is reported removed although the
    registry never had an entry for it. *)
Lemma removeSound_inherited_name :
  let w := fresh_world VisualizerRevision (CtorCreates running) in
  ("constructor" ∉ listSounds w) ∧ snd (removeSound "constructor" w) = true.
Proof.
  intros w. split; [| reflexivity].
  unfold listSounds. rewrite elem_of_Object_keys. simpl.
  rewrite lookup_empty. by intros [? ?].
Qed.

(** ** [playSound] *)

(** C5: with a stored volume [<= 0], [playSound(name)] is done at once, for
    every name: the world is as before, so no Sound was played and the
    provider was not entered. *)
Theorem playSound_muted (name : string) (w : world) :
  PrimFloat.leb (c_volume (ctl w)) 0%float = true ->
  playSound name w = (w, Done (Resolved RUndefined))
  ∧ plays (fst (playSound name w)) = plays w
  ∧ fetches (fst (playSound name w)) = fetches w
  ∧ constructions (fst (playSound name w)) = constructions w.
Proof.
  intros Hmuted.
  assert (Heq : playSound name w = (w, Done (Resolved RUndefined))).
  { unfold playSound. by rewrite Hmuted. }
  by rewrite Heq.
Qed.

Lemma playSound_muted_witness :
  playSound "coin" muted_world = (muted_world, Done (Resolved RUndefined))
  ∧ plays (fst (playSound "coin" muted_world)) = 0.
Proof.
  destruct (playSound_muted "coin" muted_world ltac:(reflexivity)) as (H1 & H2 & _).
  split; [exact H1 | exact H2].
Defined.

Lemma acquireOutput_awaits (a : awaiter) (w : world) :
  ∀ r, snd (acquireOutput (Via a) w) ≠ Done r.
Proof.
  intros r. unfold acquireOutput.
  destruct (c_output (ctl w)); [done |].
  destruct (getSharedAudioContext w) as [w1 [c|p]]; done.
Qed.

(** C6, as amended: with a stored volume [> 0], [playSound(name)] attempts
    acquisition exactly when [this.#sounds[name]] finds something truthy.
    When it finds nothing, no acquisition is attempted: the miss is reported
    as a warning and the call is done without raising. *)
Theorem playSound_unknown_sound (name : string) (w : world) :
  PrimFloat.ltb 0%float (c_volume (ctl w)) = true ->
  (truthy (getSound name w) = true -> playSound_acquires name w)
  ∧ (truthy (getSound name w) = false ->
     playSound name w = (emit (EvWarn name) w, Done (Resolved RUndefined))
     ∧ ¬ playSound_acquires name w
     ∧ fetches (fst (playSound name w)) = fetches w
     ∧ plays (fst (playSound name w)) = plays w).
Proof.
  intros Hpos. apply positive_not_le_zero in Hpos. split.
  - intros Hfound. unfold playSound_acquires, playSound, getSound in *.
    by rewrite Hpos, Hfound.
  - intros Hmiss.
    assert (Heq : playSound name w = (emit (EvWarn name) w, Done (Resolved RUndefined))).
    { unfold playSound. rewrite Hpos. unfold getSound in Hmiss. by rewrite Hmiss. }
    split; [exact Heq |]. split.
    + unfold playSound_acquires. rewrite Heq. intros Habs.
      apply (acquireOutput_awaits (InPlaySound (getSound name w)) w (Resolved RUndefined)).
      by rewrite <- Habs.
    + rewrite Heq. unfold fetches, plays; simpl. rewrite !count_app; simpl. lia.
Qed.

Lemma playSound_unknown_sound_witness :
  let w := fresh_world VisualizerRevision (CtorCreates running) in
  playSound "missing" w = (emit (EvWarn "missing") w, Done (Resolved RUndefined)).
Proof.
  intros w.
  exact (proj1 (proj2 (playSound_unknown_sound "missing" w eq_refl) eq_refl)).
Defined.

(** C6, as stated, fails: a new Controller has volume 1.0 and no sound
    ["missing"]; [playSound("missing")] does not go on as [acquireOutput]
    does, and the provider is not entered. *)
Lemma playSound_missing_skips_acquisition :
  let w := fresh_world VisualizerRevision (CtorCreates running) in
  PrimFloat.ltb 0%float (c_volume (ctl w)) = true
  ∧ ("missing" ∉ listSounds w)
  ∧ ¬ playSound_acquires "missing" w
  ∧ fetches (fst (playSound "missing" w)) = 0
  ∧ fetches (fst (acquireOutput (Via (InPlaySound VUndefined)) w)) = 1.
Proof.
  intros w. split; [reflexivity |]. split; [| split; [| split; reflexivity]].
  - unfold listSounds. rewrite elem_of_Object_keys. simpl.
    rewrite lookup_empty. by intros [? ?].
  - unfold playSound_acquires. intros Habs.
    apply (f_equal snd) in Habs. vm_compute in Habs. discriminate.
Qed.

(** ** Frames: what each piece of code leaves alone *)

Ltac unfold_code :=
  unfold call in *;
  unfold playSound, setVolume, enableVisualization, disableVisualization,
    analysis_setter, stopSound, removeSound, addSound in *;
  unfold acquireOutput in *;
  unfold acquired, getSharedAudioContext in *;
  unfold create_context, provider_resumed in *;
  unfold publish, acquireOutput_continue, awaiter_continue in *;
  unfold enableVisualization_continue, invoke in *;
  unfold output_setVolume, output_connectAnalysis, output_disconnectAnalysis in *.

Ltac count_events :=
  unfold constructions, fetches, plays in *; simpl in *;
  rewrite ?count_app in *; simpl in *.

Ltac split_cases :=
  simpl in *; simplify_eq;
  repeat (case_match; simpl in *; simplify_eq).

Ltac crunch :=
  unfold_code; split_cases; count_events;
  repeat split; try done; try lia; try congruence.

Lemma awaiter_continue_frame (a : awaiter) (r : settled (option nat)) (w w1 : world)
    (r1 : settled jsresult) :
  awaiter_continue a r w = (w1, r1) ->
  c_output (ctl w1) = c_output (ctl w)
  ∧ constructions w1 = constructions w
  ∧ fetches w1 = fetches w
  ∧ ∀ o, r1 ≠ Resolved (ROutput o).
Proof. intros Heq. destruct a, r as [[o|]|e]; crunch. Qed.

(** With an Output in place, a call leaves it there, builds nothing and is
    not suspended inside [acquireOutput]; [acquireOutput()] answers with it. *)
Lemma call_with_output (op : operation) (w w1 : world) (t : thread) (o : nat) :
  c_output (ctl w) = Some o ->
  call op w = (w1, t) ->
  c_output (ctl w1) = Some o
  ∧ constructions w1 = constructions w
  ∧ acquiring t = false
  ∧ ∀ o1, t = Done (Resolved (ROutput o1)) -> o1 = o.
Proof.
  intros Hout Hcall. destruct op; unfold_code; simpl in *; rewrite ?Hout in *;
    split_cases; count_events; repeat split; try done; try lia; try congruence.
Qed.

Lemma acquireOutput_with_output (k : caller) (w : world) (o : nat) :
  c_output (ctl w) = Some o ->
  acquireOutput k w = (w, acquired k (Resolved (Some o))).
Proof. intros Hout. unfold acquireOutput. by rewrite Hout. Qed.

(** The same for one step of the machine. *)
Lemma step_quiet (a : action) (m m1 : machine) (o : nat) :
  c_output (ctl (now m)) = Some o ->
  quiet (pool m) ->
  step a m = Some m1 ->
  c_output (ctl (now m1)) = Some o
  ∧ quiet (pool m1)
  ∧ constructions (now m1) = constructions (now m)
  ∧ length (pool m) ≤ length (pool m1)
  ∧ ∀ j o1, pool m1 !! j = Some (Done (Resolved (ROutput o1))) ->
            pool m !! j = Some (Done (Resolved (ROutput o1))) ∨ o1 = o.
Proof.
  intros Hout Hquiet Hstep. destruct a as [op|i|i|i e|b|c s]; simpl in Hstep.
  - destruct (call op (now m)) as [w t] eqn:Hcall. simplify_eq; simpl.
    destruct (call_with_output _ _ _ _ _ Hout Hcall) as (H1 & H2 & H3 & H4).
    split; [done |]. split; [apply Forall_app; split; [done | by constructor] |].
    split; [done |]. split; [rewrite length_app; lia |].
    intros j o1 Hj. apply lookup_app_Some in Hj as [Hj | [_ Hj]]; [by left | right].
    apply list_lookup_singleton_Some in Hj as [_ ->]. by apply H4.
  - destruct (pool m !! i) as [t|] eqn:Hi; [| done].
    pose proof (proj1 (Forall_lookup _ _) Hquiet i t Hi) as Hidle.
    destruct t as [c k|r k|r a|r]; try done.
    destruct (awaiter_continue a r (now m)) as [w r1] eqn:Hk. simplify_eq; simpl.
    destruct (awaiter_continue_frame _ _ _ _ _ Hk) as (H1 & H2 & _ & H4).
    split; [congruence |]. split; [by apply Forall_insert |].
    split; [done |]. split; [by rewrite length_insert |].
    intros j o1 Hj. apply list_lookup_insert_Some in Hj as [(-> & Hj & _) | [_ Hj]].
    + simplify_eq. by destruct (H4 o1).
    + by left.
  - destruct (pool m !! i) as [t|] eqn:Hi; [| done].
    pose proof (proj1 (Forall_lookup _ _) Hquiet i t Hi) as Hidle.
    by destruct t.
  - destruct (pool m !! i) as [t|] eqn:Hi; [| done].
    pose proof (proj1 (Forall_lookup _ _) Hquiet i t Hi) as Hidle.
    by destruct t.
  - simplify_eq; simpl. repeat split; try done. intros; by left.
  - simplify_eq; simpl. repeat split; try done. intros; by left.
Qed.

Lemma run_quiet (schedule : list action) (m m1 : machine) (o : nat) :
  c_output (ctl (now m)) = Some o ->
  quiet (pool m) ->
  run schedule m = Some m1 ->
  c_output (ctl (now m1)) = Some o
  ∧ quiet (pool m1)
  ∧ constructions (now m1) = constructions (now m)
  ∧ length (pool m) ≤ length (pool m1)
  ∧ ∀ j o1, pool m1 !! j = Some (Done (Resolved (ROutput o1))) ->
            pool m !! j = Some (Done (Resolved (ROutput o1))) ∨ o1 = o.
Proof.
  revert m. induction schedule as [|a rest IH]; intros m Hout Hquiet Hrun; simpl in Hrun.
  - simplify_eq. repeat split; try done. intros; by left.
  - destruct (step a m) as [m2|] eqn:Hstep; [| done].
    destruct (step_quiet _ _ _ _ Hout Hquiet Hstep) as (H1 & H2 & H3 & H4 & H5).
    destruct (IH m2 H1 H2 Hrun) as (I1 & I2 & I3 & I4 & I5).
    split; [done |]. split; [done |]. split; [congruence |]. split; [lia |].
    intros j o1 Hj. destruct (I5 j o1 Hj) as [Hold | ->]; [| by right].
    by apply H5.
Qed.

(** When a step makes a call succeed with Output [o], the Controller holds
    [o] right after it. *)
Lemma step_success_stores (a : action) (m m1 : machine) (i o : nat) :
  step a m = Some m1 ->
  pool m !! i ≠ Some (Done (Resolved (ROutput o))) ->
  pool m1 !! i = Some (Done (Resolved (ROutput o))) ->
  c_output (ctl (now m1)) = Some o.
Proof.
  intros Hstep Hbefore Hafter. destruct a as [op|j|j|j e|b|c s]; simpl in Hstep.
  - destruct (call op (now m)) as [w t] eqn:Hcall. simplify_eq; simpl in *.
    apply lookup_app_Some in Hafter as [Hold | [_ Hnew]]; [done |].
    apply list_lookup_singleton_Some in Hnew as [_ ->].
    destruct op; crunch.
  - destruct (pool m !! j) as [t|] eqn:Hj; [| done].
    destruct t as [c k|r k|r a|r]; try done.
    + destruct (acquireOutput_continue r (now m)) as [w r1] eqn:Hk. simplify_eq; simpl in *.
      apply list_lookup_insert_Some in Hafter as [(-> & Ht & _) | [_ Hold]]; [| done].
      destruct k, r as [[c|]|e]; crunch.
    + destruct (awaiter_continue a r (now m)) as [w r1] eqn:Hk. simplify_eq; simpl in *.
      apply list_lookup_insert_Some in Hafter as [(-> & Ht & _) | [_ Hold]]; [| done].
      simplify_eq. destruct (awaiter_continue_frame _ _ _ _ _ Hk) as (_ & _ & _ & H4).
      by destruct (H4 o).
  - destruct (pool m !! j) as [t|] eqn:Hj; [| done].
    destruct t as [c k|r k|r a|r]; try done. simpl in *. simplify_eq; simpl in *.
    apply list_lookup_insert_Some in Hafter as [(-> & Ht & _) | [_ Hold]]; done.
  - destruct (pool m !! j) as [t|] eqn:Hj; [| done].
    destruct t as [c k|r k|r a|r]; try done. simplify_eq; simpl in *.
    apply list_lookup_insert_Some in Hafter as [(-> & Ht & _) | [_ Hold]]; done.
  - by simplify_eq.
  - by simplify_eq.
Qed.

(** ** Repeated acquisition *)

(** Where the code does keep to one Output: once a call of
    [acquireOutput()] has succeeded with Output [o] while no other call is
    still inside [acquireOutput], whatever happens next, the Controller
    keeps [o], no further Output is built, every later call that answers
    with an Output answers with [o], and a new [acquireOutput()] returns [o]
    at once. *)
Theorem acquireOutput_stable (a : action) (m0 m m1 : machine) (i o : nat)
    (schedule : list action) :
  step a m0 = Some m ->
  pool m0 !! i ≠ Some (Done (Resolved (ROutput o))) ->
  pool m !! i = Some (Done (Resolved (ROutput o))) ->
  quiet (pool m) ->
  run schedule m = Some m1 ->
  c_output (ctl (now m1)) = Some o
  ∧ constructions (now m1) = constructions (now m)
  ∧ (∀ j o1, length (pool m) ≤ j ->
       pool m1 !! j = Some (Done (Resolved (ROutput o1))) -> o1 = o)
  ∧ step (Call OpAcquireOutput) m1
    = Some {| now := now m1; pool := pool m1 ++ [Done (Resolved (ROutput o))] |}.
Proof.
  intros Hstep Hbefore Hafter Hquiet Hrun.
  pose proof (step_success_stores _ _ _ _ _ Hstep Hbefore Hafter) as Hout.
  destruct (run_quiet _ _ _ _ Hout Hquiet Hrun) as (H1 & _ & H3 & _ & H5).
  split; [done |]. split; [done |]. split.
  - intros j o1 Hj Hdone. destruct (H5 j o1 Hdone) as [Hold | ->]; [| done].
    apply lookup_lt_Some in Hold. lia.
  - simpl. by rewrite (acquireOutput_with_output Direct _ o H1).
Qed.

Lemma acquireOutput_stable_witness :
  let w := fresh_world AnalysisSetterRevision (CtorCreates running) in
  let later := [Call (OpAddSound "coin" coin); Call (OpPlaySound "coin");
                Call OpAcquireOutput; Tick 2; HostSetsState 0 closed;
                Call (OpSetVolume 0.5%float); Call OpAcquireOutput] in
  c_output (ctl (now (after (Call OpAcquireOutput :: Tick 0 :: later) w))) = Some 0
  ∧ constructions (now (after (Call OpAcquireOutput :: Tick 0 :: later) w)) = 1.
Proof.
  intros w later.
  destruct (acquireOutput_stable (Tick 0) (after [Call OpAcquireOutput] w)
              (after [Call OpAcquireOutput; Tick 0] w)
              (after (Call OpAcquireOutput :: Tick 0 :: later) w) 0 0 later)
    as (H1 & H2 & _).
  - vm_compute; reflexivity.
  - vm_compute; discriminate.
  - vm_compute; reflexivity.
  - vm_compute; repeat constructor.
  - vm_compute; reflexivity.
  - split; [exact H1 | exact H2].
Defined.

(** C3, on the code: [acquireOutput] tests [this.#output] before its await
    and assigns it after, so a second call that was pending at the first
    success is not stopped by the test: the first call succeeds with
    Output 0, the pending one then builds Output 1 and stores it, and a
    later call returns Output 1, not the Output of the first success. *)
Lemma acquireOutput_later_call_differs :
  let w := fresh_world VisualizerRevision (CtorCreates running) in
  let m := after [Call OpAcquireOutput; Call OpAcquireOutput; Tick 0] w in
  let m1 := after [Call OpAcquireOutput; Call OpAcquireOutput; Tick 0;
                   Tick 1; Call OpAcquireOutput] w in
  pool m = [Done (Resolved (ROutput 0)); AwaitContext (Resolved (Some 0)) Direct]
  ∧ run [Tick 1; Call OpAcquireOutput] m = Some m1
  ∧ pool m1 !! 2 = Some (Done (Resolved (ROutput 1)))
  ∧ constructions (now m) = 1
  ∧ constructions (now m1) = 2.
Proof. vm_compute. repeat split. Qed.

(** ** Concurrent acquisition *)

Lemma total_weight_app (p q : list thread) :
  total_weight (p ++ q) = total_weight p + total_weight q.
Proof. induction p as [|t p IH]; simpl; [done | rewrite IH; lia]. Qed.

Lemma total_weight_insert (p : list thread) (i : nat) (t t1 : thread) :
  p !! i = Some t ->
  total_weight (<[i := t1]> p) + weight t = total_weight p + weight t1.
Proof.
  revert i. induction p as [|x p IH]; intros [|i] Hi; simpl in *; simplify_eq.
  - lia.
  - specialize (IH i Hi). lia.
Qed.

Lemma weight_built (t : thread) : weight t = 0 -> ∀ o, t ≠ built o.
Proof. intros Hw o ->. discriminate. Qed.

Lemma racing_boot (w : world) :
  c_output (ctl w) = None -> racing (fetches w) (constructions w) (boot w).
Proof.
  intros Hout. split; simpl; try done; try lia.
  by rewrite Hout.
Qed.

(** A suspended call moves on without building anything. *)
Lemma racing_idle_update (f0 n0 : nat) (m : machine) (w1 : world) (i : nat)
    (t t1 : thread) :
  racing f0 n0 m ->
  pool m !! i = Some t ->
  weight t = 0 -> weight t1 = 0 -> direct t1 ->
  fetches w1 = fetches (now m) ->
  constructions w1 = constructions (now m) ->
  outputs w1 = outputs (now m) ->
  c_output (ctl w1) = c_output (ctl (now m)) ->
  racing f0 n0 {| now := w1; pool := <[i := t1]> (pool m) |}.
Proof.
  intros [Hd Hf Hc Hl Hdist Hout] Hi Hw Hw1 Hd1 Ef Ec Eo Eout.
  pose proof (total_weight_insert _ _ _ t1 Hi) as Htw.
  assert (Hold : ∀ j o, <[i := t1]> (pool m) !! j = Some (built o) ->
                        pool m !! j = Some (built o) ∧ j ≠ i).
  { intros j o Hj. apply list_lookup_insert_Some in Hj as [(-> & Hj & _) | [Hne Hj]].
    - by destruct (weight_built _ Hw1 o).
    - done. }
  split; simpl.
  - by apply Forall_insert.
  - rewrite length_insert. lia.
  - lia.
  - intros j o Hj. rewrite Eo. apply (Hl j). by apply Hold.
  - intros j1 j2 o H1 H2. apply (Hdist j1 j2 o); by apply Hold.
  - rewrite Eout, Eo. destruct (c_output (ctl (now m))) as [o|]; [| lia].
    destruct Hout as [Hlen [j Hj]]. split; [done |]. exists j.
    rewrite list_lookup_insert_ne; [done |].
    intros ->. rewrite Hi in Hj. by simplify_eq.
Qed.

(** A suspended call succeeds: it builds a new Output and stores it. *)
Lemma racing_built_update (f0 n0 : nat) (m : machine) (w1 : world) (i : nat)
    (t : thread) :
  racing f0 n0 m ->
  pool m !! i = Some t ->
  weight t = 0 ->
  fetches w1 = fetches (now m) ->
  constructions w1 = S (constructions (now m)) ->
  length (outputs w1) = S (length (outputs (now m))) ->
  c_output (ctl w1) = Some (length (outputs (now m))) ->
  racing f0 n0 {| now := w1; pool := <[i := built (length (outputs (now m)))]> (pool m) |}.
Proof.
  intros [Hd Hf Hc Hl Hdist Hout] Hi Hw Ef Ec Eo Eout.
  pose proof (total_weight_insert _ _ _ (built (length (outputs (now m)))) Hi) as Htw.
  simpl in Htw.
  assert (Hcases : ∀ j o,
            <[i := built (length (outputs (now m)))]> (pool m) !! j = Some (built o) ->
            (j = i ∧ o = length (outputs (now m)))
            ∨ (j ≠ i ∧ pool m !! j = Some (built o) ∧ o < length (outputs (now m)))).
  { intros j o Hj. apply list_lookup_insert_Some in Hj as [(-> & Hj & _) | [Hne Hj]].
    - left. unfold built in Hj. by simplify_eq.
    - right. eauto. }
  split; simpl.
  - by apply Forall_insert.
  - rewrite length_insert. lia.
  - lia.
  - intros j o Hj. rewrite Eo. destruct (Hcases j o Hj) as [[_ ->] | (_ & _ & Hlt)]; lia.
  - intros j1 j2 o H1 H2.
    destruct (Hcases j1 o H1) as [[-> E1] | (N1 & O1 & L1)],
             (Hcases j2 o H2) as [[-> E2] | (N2 & O2 & L2)]; try done; try lia.
    by apply (Hdist j1 j2 o).
  - rewrite Eout, Eo. split; [done |]. exists i.
    apply list_lookup_insert_eq. by apply lookup_lt_Some in Hi.
Qed.

Lemma direct_weight (t : thread) : acquiring t = true -> weight t = 0.
Proof. by destruct t. Qed.

(** One step that is not a call keeps the race as described. *)
Lemma racing_step (f0 n0 : nat) (a : action) (m m1 : machine) :
  racing f0 n0 m -> is_call a = false -> step a m = Some m1 ->
  racing f0 n0 m1 ∧ length (pool m1) = length (pool m).
Proof.
  intros Hr Hcall Hstep.
  destruct a as [op|i|i|i e|b|c s]; simpl in Hstep; try done.
  - destruct (pool m !! i) as [t|] eqn:Hi; [| done].
    pose proof (proj1 (Forall_lookup _ _) (racing_direct _ _ _ Hr) i t Hi) as Hd.
    destruct t as [c k|r k|r a|r]; try done. destruct k; [| done].
    destruct (acquireOutput_continue r (now m)) as [w r1] eqn:Hk. simplify_eq.
    split; [| simpl; by rewrite length_insert].
    destruct r as [[c|]|e]; simpl in Hk; simplify_eq.
    + apply (racing_built_update _ _ _ _ _ _ Hr Hi); try done;
        unfold_code; split_cases; count_events;
        rewrite ?length_alter, ?length_app; simpl; try done; lia.
    + by apply (racing_idle_update _ _ _ _ _ _ _ Hr Hi).
    + by apply (racing_idle_update _ _ _ _ _ _ _ Hr Hi).
  - destruct (pool m !! i) as [t|] eqn:Hi; [| done].
    pose proof (proj1 (Forall_lookup _ _) (racing_direct _ _ _ Hr) i t Hi) as Hd.
    destruct t as [c k|r k|r a|r]; try done. destruct k; [| done].
    simpl in Hstep. simplify_eq.
    split; [| simpl; by rewrite length_insert].
    apply (racing_idle_update _ _ _ _ _ _ _ Hr Hi); try done; by count_events.
  - destruct (pool m !! i) as [t|] eqn:Hi; [| done].
    pose proof (proj1 (Forall_lookup _ _) (racing_direct _ _ _ Hr) i t Hi) as Hd.
    destruct t as [c k|r k|r a|r]; try done. destruct k; [| done].
    simplify_eq.
    split; [| simpl; by rewrite length_insert].
    destruct m as [w p]. by apply (racing_idle_update _ _ _ _ _ _ _ Hr Hi).
  - simplify_eq. split; [| done]. by destruct Hr.
  - simplify_eq. split; [| done]. by destruct Hr.
Qed.

Lemma racing_run (f0 n0 : nat) (schedule : list action) (m m1 : machine) :
  racing f0 n0 m ->
  forallb (λ a, negb (is_call a)) schedule = true ->
  run schedule m = Some m1 ->
  racing f0 n0 m1 ∧ length (pool m1) = length (pool m).
Proof.
  revert m. induction schedule as [|a rest IH]; intros m Hr Hnc Hrun; simpl in *.
  - by simplify_eq.
  - apply andb_prop in Hnc as [Ha Hrest]. apply negb_true_iff in Ha.
    destruct (step a m) as [m2|] eqn:Hstep; [| done].
    destruct (racing_step _ _ _ _ _ Hr Ha Hstep) as [Hr2 Hlen2].
    destruct (IH m2 Hr2 Hrest Hrun) as [Hr1 Hlen1].
    split; [done | congruence].
Qed.

(** A call of [acquireOutput()] that finds [this.#output] empty joins the
    race: it enters the provider and is suspended. *)
Lemma racing_call (f0 n0 : nat) (m m1 : machine) :
  racing f0 n0 m ->
  c_output (ctl (now m)) = None ->
  step (Call OpAcquireOutput) m = Some m1 ->
  racing f0 n0 m1 ∧ length (pool m1) = S (length (pool m)).
Proof.
  intros [Hd Hf Hc Hl Hdist Hout] Hnone Hstep. simpl in Hstep.
  destruct (acquireOutput Direct (now m)) as [w t] eqn:Hacq. simplify_eq.
  rewrite Hnone in Hout.
  assert (Hframe : acquiring t = true ∧ direct t ∧ fetches w = S (fetches (now m))
                   ∧ constructions w = constructions (now m)
                   ∧ outputs w = outputs (now m) ∧ c_output (ctl w) = None).
  { unfold acquireOutput in Hacq. rewrite Hnone in Hacq.
    unfold_code; split_cases; count_events; repeat split; try done; lia. }
  destruct Hframe as (Hacq1 & Hd1 & Ef & Ec & Eo & Eout).
  pose proof (direct_weight _ Hacq1) as Hw.
  assert (Hold : ∀ j o, (pool m ++ [t]) !! j = Some (built o) -> pool m !! j = Some (built o)).
  { intros j o Hj. apply lookup_app_Some in Hj as [Hj | [_ Hj]]; [done |].
    apply list_lookup_singleton_Some in Hj as [_ ->]. by destruct (weight_built _ Hw o). }
  split; [| simpl; rewrite length_app; simpl; lia].
  split; simpl.
  - apply Forall_app. split; [done | by constructor].
  - rewrite length_app; simpl. lia.
  - rewrite total_weight_app; simpl. lia.
  - intros j o Hj. rewrite Eo. apply (Hl j). by apply Hold.
  - intros j1 j2 o H1 H2. apply (Hdist j1 j2 o); by apply Hold.
  - rewrite Eout, total_weight_app; simpl. lia.
Qed.

(** The same under every interleaving: on a Controller with no Output and
    no other call in flight, when a second [acquireOutput()] is issued while
    a first one is still pending, each call enters the provider, so there
    are two fetches; and when both succeed, each builds an Output of its
    own: two constructions, two different Outputs returned, and the
    Controller keeps the one built last. *)
Theorem acquireOutput_concurrent_calls (w : world) (pre post : list action)
    (m2 m4 : machine) :
  c_output (ctl w) = None ->
  no_calls pre = true ->
  no_calls post = true ->
  run (Call OpAcquireOutput :: pre) (boot w) = Some m2 ->
  acquiring <$> pool m2 !! 0 = Some true ->
  run (Call OpAcquireOutput :: post) m2 = Some m4 ->
  fetches (now m4) = fetches w + 2
  ∧ length (pool m4) = 2
  ∧ ∀ oA oB, pool m4 = [Done (Resolved (ROutput oA)); Done (Resolved (ROutput oB))] ->
      constructions (now m4) = constructions w + 2
      ∧ oA ≠ oB
      ∧ c_output (ctl (now m4)) = Some (Nat.max oA oB).
Proof.
  intros Hnone Hpre Hpost Hrun2 Hpending Hrun4.
  apply run_cons in Hrun2 as (m1 & Hs1 & Hrun2).
  destruct (racing_call _ _ _ _ (racing_boot w Hnone) Hnone Hs1) as [Hr1 Hl1].
  destruct (racing_run _ _ _ _ _ Hr1 Hpre Hrun2) as [Hr2 Hl2].
  simpl in Hl1. rewrite Hl1 in Hl2.
  assert (Hnone2 : c_output (ctl (now m2)) = None).
  { pose proof (racing_output _ _ _ Hr2) as Hout.
    destruct (c_output (ctl (now m2))) as [o|]; [| done].
    destruct Hout as [_ [i Hi]].
    assert (i = 0) as -> by (apply lookup_lt_Some in Hi; lia).
    rewrite Hi in Hpending. discriminate. }
  apply run_cons in Hrun4 as (m3 & Hs3 & Hrun4).
  destruct (racing_call _ _ _ _ Hr2 Hnone2 Hs3) as [Hr3 Hl3].
  destruct (racing_run _ _ _ _ _ Hr3 Hpost Hrun4) as [Hr4 Hl4].
  split; [rewrite (racing_fetches _ _ _ Hr4); lia |].
  split; [lia |].
  intros oA oB Hpool.
  pose proof (racing_constructions _ _ _ Hr4) as Hc.
  pose proof (racing_live _ _ _ Hr4) as Hlive.
  pose proof (racing_distinct _ _ _ Hr4) as Hdist.
  pose proof (racing_output _ _ _ Hr4) as Hout.
  rewrite Hpool in *. simpl in Hc.
  split; [lia |]. split.
  - intros ->. by specialize (Hdist 0 1 oB eq_refl eq_refl).
  - pose proof (Hlive 0 oA eq_refl) as LA. pose proof (Hlive 1 oB eq_refl) as LB.
    destruct (c_output (ctl (now m4))) as [o|]; [| simpl in Hout; lia].
    destruct Hout as [Hlen [[|[|i]] Hi]]; simpl in Hi; unfold built in Hi; simplify_eq;
      f_equal; lia.
Qed.

Lemma acquireOutput_concurrent_calls_witness :
  let w := fresh_world AnalysisSetterRevision (CtorCreates suspended) in
  let m4 := after [Call OpAcquireOutput; ResumeResolves 0; Call OpAcquireOutput;
                   Tick 1; Tick 0] w in
  pool m4 = [Done (Resolved (ROutput 1)); Done (Resolved (ROutput 0))]
  ∧ fetches (now m4) = 2
  ∧ constructions (now m4) = 2
  ∧ c_output (ctl (now m4)) = Some 1.
Proof.
  intros w m4.
  destruct (acquireOutput_concurrent_calls w [ResumeResolves 0] [Tick 1; Tick 0]
              (after [Call OpAcquireOutput; ResumeResolves 0] w) m4)
    as (Hf & _ & Hboth).
  - vm_compute; reflexivity.
  - vm_compute; reflexivity.
  - vm_compute; reflexivity.
  - vm_compute; reflexivity.
  - vm_compute; reflexivity.
  - vm_compute; reflexivity.
  - assert (Hpool : pool m4 = [Done (Resolved (ROutput 1)); Done (Resolved (ROutput 0))])
      by (vm_compute; reflexivity).
    destruct (Hboth 1 0 Hpool) as (Hc & _ & Hout).
    split; [exact Hpool | split; [exact Hf | split; [exact Hc | exact Hout]]].
Defined.

(** C1, on the code: nothing remembers an acquisition that is in flight.
    On a page whose contexts start running (as the mock of the tests does),
    a second call is issued while the first is suspended at its await: the
    provider is entered twice, two Outputs are built, and the calls resolve
    to different Outputs, where one fetch, one Output and the same Output
    for both calls are meant. *)
Lemma acquireOutput_not_single_flight :
  let w := fresh_world VisualizerRevision (CtorCreates running) in
  let m := after [Call OpAcquireOutput; Call OpAcquireOutput; Tick 0; Tick 1] w in
  run [Call OpAcquireOutput] (boot w)
  = Some {| now := fst (acquireOutput Direct w);
            pool := [AwaitContext (Resolved (Some 0)) Direct] |}
  ∧ run [Call OpAcquireOutput; Call OpAcquireOutput; Tick 0; Tick 1] (boot w) = Some m
  ∧ pool m = [Done (Resolved (ROutput 0)); Done (Resolved (ROutput 1))]
  ∧ fetches (now m) = 2
  ∧ constructions (now m) = 2.
Proof. vm_compute. repeat split. Qed.

(** When the new contexts start suspended, the two calls even create a
    context each. *)
Lemma concurrent_calls_create_two_contexts :
  let w := fresh_world VisualizerRevision (CtorCreates suspended) in
  let m := after [Call OpAcquireOutput; Call OpAcquireOutput; ResumeResolves 0;
                  ResumeResolves 1; Tick 0; Tick 1] w in
  length (contexts (now m)) = 2
  ∧ audioContext <$> outputs (now m) = [0; 1].
Proof. vm_compute. repeat split. Qed.

(** The usage that the documentation shows, [controller.playSound('coin')]
    followed by [controller.setVolume(...)] with neither call awaited, runs
    into it: two Outputs are built, [coin] plays on Output 0 and the
    Controller keeps Output 1, so that a later [setVolume] no longer reaches
    the Output that is playing. *)
Lemma unawaited_calls_orphan_output :
  let w := fst (addSound "coin" coin (fresh_world VisualizerRevision (CtorCreates running))) in
  let m := after [Call (OpPlaySound "coin"); Call (OpSetVolume 0.75%float);
                  Tick 0; Tick 1; Tick 0; Tick 1] w in
  let m1 := after [Call (OpPlaySound "coin"); Call (OpSetVolume 0.75%float);
                   Tick 0; Tick 1; Tick 0; Tick 1;
                   Call (OpSetVolume 0.25%float); Tick 2] w in
  pool m = [Done (Resolved RUndefined); Done (Resolved RUndefined)]
  ∧ constructions (now m) = 2
  ∧ plays (now m) = 1
  ∧ trace (now m) !! 8 = Some (EvInvoke coin "play" (Some 0))
  ∧ c_output (ctl (now m)) = Some 1
  ∧ run [Call (OpSetVolume 0.25%float); Tick 2] m = Some m1
  ∧ gain <$> outputs (now m1) = [0.75%float; 0.25%float].
Proof. vm_compute. repeat split. Qed.

(** ** Fields of the Outputs in the heap *)

Section Field.
Context {A : Type} (field : Output -> A).

Lemma field_alter_kept (f : Output -> Output) (i o : nat) (l : list Output) (a : A) :
  (∀ out, field (f out) = field out) ->
  field <$> l !! o = Some a -> field <$> alter f i l !! o = Some a.
Proof.
  intros Hf Ho. rewrite list_lookup_alter. case_decide; [subst | done].
  destruct (l !! o) as [out|]; simpl in *; [| done]. by rewrite Hf.
Qed.

Lemma field_alter_set (f : Output -> Output) (i o : nat) (l : list Output) (a : A) :
  (∀ out, field (f out) = a) ->
  field <$> l !! o = Some a -> field <$> alter f i l !! o = Some a.
Proof.
  intros Hf Ho. rewrite list_lookup_alter. case_decide; [subst | done].
  destruct (l !! o) as [out|]; simpl in *; [| done]. by rewrite Hf.
Qed.

Lemma field_alter_here (f : Output -> Output) (o : nat) (l : list Output) (a : A) :
  (∀ out, field (f out) = a) ->
  o < length l -> field <$> alter f o l !! o = Some a.
Proof.
  intros Hf Ho. rewrite list_lookup_alter_eq.
  destruct (lookup_lt_is_Some_2 l o Ho) as [out ->]. simpl. by rewrite Hf.
Qed.

Lemma field_snoc (x : Output) (o : nat) (l : list Output) (a : A) :
  field <$> l !! o = Some a -> field <$> (l ++ [x]) !! o = Some a.
Proof.
  intros Ho. destruct (l !! o) as [out|] eqn:Hout; [| done].
  by rewrite (lookup_app_l_Some _ _ _ _ Hout).
Qed.

End Field.

Lemma snoc_length_lt {A : Type} (l : list A) (x : A) : length l < length (l ++ [x]).
Proof. rewrite length_app; simpl; lia. Qed.

(** ** Invariants of the Outputs that calls hand out *)

Section Handed_out_facts.
Variable good_world : world -> Prop.
Variable holds : world -> nat -> Prop.
Variable good_awaiter : awaiter -> Prop.
(** [allowed]: which actions the schedule may take. *)
Variable allowed : action -> Prop.

Hypothesis call_ok : ∀ op w w1 t,
  good_world w -> allowed (Call op) -> call op w = (w1, t) ->
  good_world w1 ∧ kept holds w w1 ∧ (∀ o, output_of t = Some o -> holds w1 o) ∧ good_thread good_awaiter t.

Hypothesis continue_ok : ∀ r w w1 r1,
  good_world w -> acquireOutput_continue r w = (w1, r1) ->
  good_world w1 ∧ kept holds w w1 ∧ (∀ o, r1 = Resolved (Some o) -> holds w1 o).

Hypothesis awaiter_ok : ∀ a r w w1 r1,
  good_world w -> good_awaiter a -> awaiter_continue a r w = (w1, r1) ->
  good_world w1 ∧ kept holds w w1.

Hypothesis frame_ok : ∀ w w1,
  ctl w1 = ctl w -> outputs w1 = outputs w -> good_world w -> good_world w1 ∧ kept holds w w1.

Lemma handed_out_update (m : machine) (w1 : world) (i : nat) (t1 : thread) :
  handed_out good_world holds good_awaiter m ->
  good_world w1 -> kept holds (now m) w1 ->
  (∀ o, output_of t1 = Some o -> holds w1 o) ->
  good_thread good_awaiter t1 ->
  handed_out good_world holds good_awaiter {| now := w1; pool := <[i := t1]> (pool m) |}.
Proof.
  intros [Hw Ho Ht] Hw1 Hkept Ho1 Ht1. split; simpl; [done | |].
  - intros j t o Hj Hout.
    apply list_lookup_insert_Some in Hj as [(-> & <- & _) | [_ Hj]]; [by apply Ho1 |].
    apply Hkept. by apply (Ho j t).
  - intros j t Hj.
    apply list_lookup_insert_Some in Hj as [(-> & <- & _) | [_ Hj]]; [done |].
    by apply (Ht j).
Qed.

Lemma handed_out_step (a : action) (m m1 : machine) :
  handed_out good_world holds good_awaiter m -> allowed a -> step a m = Some m1 -> handed_out good_world holds good_awaiter m1.
Proof.
  intros Hm Hallowed Hstep. pose proof Hm as [Hw Ho Ht].
  destruct a as [op|i|i|i e|b|c s]; simpl in Hstep.
  - destruct (call op (now m)) as [w t] eqn:Hcall. simplify_eq.
    destruct (call_ok _ _ _ _ Hw Hallowed Hcall) as (H1 & H2 & H3 & H4).
    split; simpl; [done | |].
    + intros j t1 o Hj Hout. apply lookup_app_Some in Hj as [Hj | [_ Hj]].
      * apply H2. by apply (Ho j t1).
      * apply list_lookup_singleton_Some in Hj as [_ ->]. by apply H3.
    + intros j t1 Hj. apply lookup_app_Some in Hj as [Hj | [_ Hj]]; [by apply (Ht j) |].
      by apply list_lookup_singleton_Some in Hj as [_ ->].
  - destruct (pool m !! i) as [t|] eqn:Hi; [| done].
    destruct t as [c k|r k|r a|r]; try done.
    + destruct (acquireOutput_continue r (now m)) as [w r1] eqn:Hk. simplify_eq.
      destruct (continue_ok _ _ _ _ Hw Hk) as (H1 & H2 & H3).
      apply handed_out_update; try done.
      * intros o Hout. apply H3. destruct k, r1 as [[o1|]|e]; simpl in Hout; by simplify_eq.
      * intros a Ha. apply (Ht i _ Hi a). by destruct k.
    + destruct (awaiter_continue a r (now m)) as [w r1] eqn:Hk. simplify_eq.
      destruct (awaiter_ok _ _ _ _ _ Hw (Ht i _ Hi a eq_refl) Hk) as (H1 & H2).
      destruct (awaiter_continue_frame _ _ _ _ _ Hk) as (_ & _ & _ & H4).
      apply handed_out_update; try done.
      intros o Hout. destruct r1 as [[]|]; simpl in Hout; simplify_eq. by destruct (H4 o).
  - destruct (pool m !! i) as [t|] eqn:Hi; [| done].
    destruct t as [c k|r k|r a|r]; try done. simpl in Hstep. simplify_eq.
    destruct (frame_ok (now m)
                (publish c (with_contexts (<[c := running]> (contexts (now m))) (now m))))
      as (H1 & H2); try done.
    apply handed_out_update; try done. intros a Ha. by apply (Ht i _ Hi a).
  - destruct (pool m !! i) as [t|] eqn:Hi; [| done].
    destruct t as [c k|r k|r a|r]; try done. simplify_eq.
    destruct (frame_ok (now m) (now m)) as (H1 & H2); try done.
    apply handed_out_update; try done. intros a Ha. by apply (Ht i _ Hi a).
  - simplify_eq.
    destruct (frame_ok (now m) (with_ctor b (now m))) as (H1 & H2); try done.
    split; simpl; [done | | done]. intros j t o Hj Hout. apply H2. by apply (Ho j t).
  - simplify_eq.
    destruct (frame_ok (now m)
                (with_contexts (<[c := s]> (contexts (now m))) (now m)))
      as (H1 & H2); try done.
    split; simpl; [done | | done]. intros j t o Hj Hout. apply H2. by apply (Ho j t).
Qed.

Lemma handed_out_run (schedule : list action) (m m1 : machine) :
  handed_out good_world holds good_awaiter m -> Forall allowed schedule -> run schedule m = Some m1 -> handed_out good_world holds good_awaiter m1.
Proof.
  revert m. induction schedule as [|a rest IH]; intros m Hm Hall Hrun.
  - simpl in Hrun. by simplify_eq.
  - apply run_cons in Hrun as (m0 & Hstep & Hrun).
    apply Forall_cons in Hall as [Ha Hrest].
    apply (IH m0); [| done | done]. by apply (handed_out_step a m).
Qed.

End Handed_out_facts.

(** ** Volume across the lifecycle *)

Ltac solve_field :=
  repeat first
    [ done
    | apply field_alter_here; [by intros [] | rewrite ?length_alter; by apply snoc_length_lt]
    | apply field_alter_set; [by intros [] |]
    | apply field_alter_kept; [by intros [] |]
    | apply field_snoc ].

Ltac solve_handed :=
  unfold_code; split_cases;
  repeat split; simpl; intros; simplify_eq; eauto; solve_field; eauto.

Lemma acquireOutput_continue_tuned (v : float) (r : settled (option nat))
    (w w1 : world) (r1 : settled (option nat)) :
  tuned_world v w ->
  acquireOutput_continue r w = (w1, r1) ->
  tuned_world v w1 ∧ kept (has_gain v) w w1 ∧ ∀ o, r1 = Resolved (Some o) -> has_gain v w1 o.
Proof.
  intros [Hv Ho] Hk. unfold tuned_world, kept, has_gain in *.
  destruct r as [[c|]|e]; solve_handed.
Qed.

Lemma awaiter_continue_tuned (v : float) (a : awaiter) (r : settled (option nat))
    (w w1 : world) (r1 : settled jsresult) :
  tuned_world v w ->
  applies v a ->
  awaiter_continue a r w = (w1, r1) ->
  tuned_world v w1 ∧ kept (has_gain v) w w1.
Proof.
  intros [Hv Ho] Ha Hk. unfold tuned_world, kept, has_gain in *.
  destruct a as [s|v1|]; [| rewrite (Ha v1 eq_refl) in * |];
    destruct r as [[o|]|e]; solve_handed.
Qed.

Lemma call_tuned (v : float) (op : operation) (w w1 : world) (t : thread) :
  tuned_world v w ->
  keeps_volume v (Call op) ->
  call op w = (w1, t) ->
  tuned_world v w1 ∧ kept (has_gain v) w w1
  ∧ (∀ o, output_of t = Some o -> has_gain v w1 o)
  ∧ good_thread (applies v) t.
Proof.
  intros [Hv Ho] Hkeep Hcall. unfold tuned_world, kept, has_gain, good_thread, applies in *.
  destruct op; solve_handed.
Qed.

Lemma frame_tuned (v : float) (w w1 : world) :
  ctl w1 = ctl w -> outputs w1 = outputs w ->
  tuned_world v w -> tuned_world v w1 ∧ kept (has_gain v) w w1.
Proof.
  intros Hc Ho [Hv Hout]. unfold tuned_world, kept, has_gain. rewrite Hc, Ho. by repeat split.
Qed.

Lemma tuned_run (v : float) (schedule : list action) (m m1 : machine) :
  tuned v m -> Forall (keeps_volume v) schedule -> run schedule m = Some m1 -> tuned v m1.
Proof.
  apply handed_out_run.
  - apply call_tuned.
  - apply acquireOutput_continue_tuned.
  - apply awaiter_continue_tuned.
  - apply frame_tuned.
Qed.

Lemma setVolume_without_output (v : float) (w w1 : world) (t : thread) :
  c_output (ctl w) = None ->
  setVolume v w = (w1, t) ->
  c_volume (ctl w1) = v ∧ c_output (ctl w1) = None
  ∧ output_of t = None ∧ awaiter_of t = Some (InSetVolume v).
Proof.
  intros Hnone Hset. unfold setVolume, acquireOutput in Hset. simpl in Hset.
  rewrite Hnone in Hset. unfold_code; split_cases; done.
Qed.

(** Where the code does keep the stored volume: from a Controller with no
    Output and no call in flight, [setVolume(v)] stores [v] whatever becomes
    of its acquisition, and as long as no other volume is set, every
    [acquireOutput()] that succeeds afterwards yields an Output whose gain
    is [v]. *)
Theorem setVolume_persists (w : world) (v : float) (schedule : list action) (m : machine) :
  c_output (ctl w) = None ->
  Forall (keeps_volume v) schedule ->
  run (Call (OpSetVolume v) :: schedule) (boot w) = Some m ->
  c_volume (ctl (now (after [Call (OpSetVolume v)] w))) = v
  ∧ c_volume (ctl (now m)) = v
  ∧ ∀ i o, pool m !! i = Some (Done (Resolved (ROutput o))) ->
           gain <$> outputs (now m) !! o = Some v.
Proof.
  intros Hnone Hkeep Hrun.
  apply run_cons in Hrun as (m0 & Hstep & Hrun).
  simpl in Hstep. destruct (setVolume v w) as [w1 t] eqn:Hset.
  simplify_eq.
  destruct (setVolume_without_output _ _ _ _ Hnone Hset) as (Hv1 & Hnone1 & Hout1 & Ha1).
  assert (Hfirst : c_volume (ctl (now (after [Call (OpSetVolume v)] w))) = v).
  { unfold after. simpl. by rewrite Hset. }
  assert (Htuned : tuned v {| now := w1; pool := [t] |}).
  { split; simpl.
    - split; [done |]. intros o Ho. congruence.
    - intros [|i] t1 o Hi Hout; simpl in Hi; simplify_eq; congruence.
    - intros [|i] t1 Hi a Ha v1 ->; simpl in Hi; simplify_eq; congruence. }
  pose proof (tuned_run _ _ _ _ Htuned Hkeep Hrun) as [[Hv _] Ho _].
  split; [done |]. split; [done |].
  intros i o Hi. by apply (Ho i _ o Hi).
Qed.

Lemma setVolume_persists_witness :
  let w := fresh_world VisualizerRevision (CtorCreates suspended) in
  let m := after [Call (OpSetVolume 0.5%float); ResumeRejects 0 (HostError 0);
                  Tick 0; Tick 0; Call OpAcquireOutput; ResumeResolves 1; Tick 1] w in
  pool m = [Done (Rejected (HostError 0)); Done (Resolved (ROutput 0))]
  ∧ c_volume (ctl (now m)) = 0.5%float
  ∧ gain <$> outputs (now m) !! 0 = Some 0.5%float.
Proof.
  intros w m.
  destruct (setVolume_persists w 0.5%float
              [ResumeRejects 0 (HostError 0); Tick 0; Tick 0;
               Call OpAcquireOutput; ResumeResolves 1; Tick 1] m)
    as (_ & Hv & Hgain).
  - reflexivity.
  - repeat constructor.
  - vm_compute; reflexivity.
  - split; [vm_compute; reflexivity |]. split; [exact Hv |].
    apply (Hgain 1 0). vm_compute; reflexivity.
Defined.

(** C4, on the code: after its await [setVolume] applies the volume it was
    called with, not the stored one, to whatever Output its own acquisition
    gave.  With an earlier [setVolume(v1)] still suspended at [resume()],
    the Controller has no Output yet; [setVolume(v2)] stores [v2] and its
    acquisition succeeds with gain [v2]; the earlier call, resumed later,
    builds a second Output, which the Controller keeps, and sets its gain
    to [v1].  A subsequent [acquireOutput()] then yields an Output whose
    gain is [v1] while the stored volume is [v2]. *)
Theorem setVolume_overtaken (rev : revision) (v1 v2 : float) :
  let w := fresh_world rev (CtorCreates suspended) in
  let m0 := after [Call (OpSetVolume v1)] w in
  ∃ m,
    run [Call (OpSetVolume v2); ResumeResolves 1; Tick 1; Tick 1;
         ResumeResolves 0; Tick 0; Tick 0; Call OpAcquireOutput] m0 = Some m
    ∧ pool m0 = [AwaitResume 0 (Via (InSetVolume v1))]
    ∧ c_output (ctl (now m0)) = None
    ∧ c_volume (ctl (now m)) = v2
    ∧ pool m !! 2 = Some (Done (Resolved (ROutput 1)))
    ∧ gain <$> outputs (now m) !! 1 = Some v1.
Proof.
  intros w m0. eexists. split; [destruct rev; vm_compute; reflexivity |].
  destruct rev; vm_compute; repeat split.
Qed.

(** ** The analysis node *)

Lemma acquireOutput_continue_attached (node : value) (r : settled (option nat))
    (w w1 : world) (r1 : settled (option nat)) :
  attached_world node w ->
  acquireOutput_continue r w = (w1, r1) ->
  attached_world node w1 ∧ kept (has_node node) w w1
  ∧ ∀ o, r1 = Resolved (Some o) -> has_node node w1 o.
Proof.
  intros (Hk & Hn & Ht & Ho) Hc. unfold attached_world, kept, has_node in *.
  destruct r as [[c|]|e]; unfold acquireOutput_continue in Hc; simpl in Hc;
    rewrite ?Hk, ?Hn, ?Ht in Hc; solve_handed.
Qed.

Lemma awaiter_continue_attached (node : value) (a : awaiter) (r : settled (option nat))
    (w w1 : world) (r1 : settled jsresult) :
  attached_world node w ->
  not_visualizing a ->
  awaiter_continue a r w = (w1, r1) ->
  attached_world node w1 ∧ kept (has_node node) w w1.
Proof.
  intros (Hk & Hn & Ht & Ho) Ha Hc. unfold attached_world, kept, has_node in *.
  destruct a as [s|v1|]; [| | done]; destruct r as [[o|]|e]; solve_handed.
Qed.

Lemma call_attached (node : value) (op : operation) (w w1 : world) (t : thread) :
  attached_world node w ->
  keeps_analysis node (Call op) ->
  call op w = (w1, t) ->
  attached_world node w1 ∧ kept (has_node node) w w1
  ∧ (∀ o, output_of t = Some o -> has_node node w1 o)
  ∧ good_thread not_visualizing t.
Proof.
  intros (Hk & Hn & Ht & Ho) Hkeep Hcall.
  unfold attached_world, kept, has_node, good_thread, not_visualizing in *.
  destruct op; unfold_code; simpl in *; rewrite ?Hk in *; solve_handed.
Qed.

Lemma frame_attached (node : value) (w w1 : world) :
  ctl w1 = ctl w -> outputs w1 = outputs w ->
  attached_world node w -> attached_world node w1 ∧ kept (has_node node) w w1.
Proof.
  intros Hc Ho (Hk & Hn & Ht & Hout). unfold attached_world, kept, has_node.
  rewrite Hc, Ho. by repeat split.
Qed.

Lemma attached_run (node : value) (schedule : list action) (m m1 : machine) :
  attached node m -> Forall (keeps_analysis node) schedule ->
  run schedule m = Some m1 -> attached node m1.
Proof.
  apply handed_out_run.
  - apply call_attached.
  - apply acquireOutput_continue_attached.
  - apply awaiter_continue_attached.
  - apply frame_attached.
Qed.

(** The setter, on its own: the node is stored, and connected at once to the
    Output the Controller holds. *)
Lemma analysis_setter_attaches (node : value) (w w1 : world) (r : settled jsresult) :
  klass (ctl w) = AnalysisSetterRevision ->
  (∀ o, c_output (ctl w) = Some o -> o < length (outputs w)) ->
  analysis_setter node w = (w1, r) ->
  r = Resolved RUndefined
  ∧ klass (ctl w1) = AnalysisSetterRevision
  ∧ c_analysis (ctl w1) = node
  ∧ c_output (ctl w1) = c_output (ctl w)
  ∧ ∀ o, c_output (ctl w1) = Some o -> has_node node w1 o.
Proof.
  intros Hk Hlive Hset. unfold analysis_setter in Hset. rewrite Hk in Hset. simpl in Hset.
  unfold has_node.
  destruct (c_output (ctl w)) as [o|] eqn:Hout; simplify_eq; simpl;
    repeat split; try done.
  - intros o1 Ho1. simplify_eq. apply field_alter_here; [by intros [] | by apply Hlive].
  - intros o1 Ho1. congruence.
Qed.

(** C9: in the revision with the [analysis] setter, setting a node stores
    it and connects it at once to the Output the Controller holds, if any;
    and as long as no other node is set, the Controller's Output and every
    Output that [acquireOutput()] yields afterwards, newly built ones
    included, has the node attached. *)
Theorem analysis_attached (w : world) (node : value) (schedule : list action)
    (m : machine) :
  klass (ctl w) = AnalysisSetterRevision ->
  truthy node = true ->
  (∀ o, c_output (ctl w) = Some o -> o < length (outputs w)) ->
  Forall (keeps_analysis node) schedule ->
  run (Call (OpSetAnalysis node) :: schedule) (boot w) = Some m ->
  (c_analysis (ctl (fst (analysis_setter node w))) = node
   ∧ ∀ o, c_output (ctl w) = Some o ->
          analysisNode <$> outputs (fst (analysis_setter node w)) !! o = Some node)
  ∧ c_analysis (ctl (now m)) = node
  ∧ (∀ o, c_output (ctl (now m)) = Some o ->
          analysisNode <$> outputs (now m) !! o = Some node)
  ∧ (∀ i o, pool m !! i = Some (Done (Resolved (ROutput o))) ->
            analysisNode <$> outputs (now m) !! o = Some node).
Proof.
  intros Hk Htruthy Hlive Hkeep Hrun.
  apply run_cons in Hrun as (m0 & Hstep & Hrun).
  simpl in Hstep. destruct (analysis_setter node w) as [w1 r] eqn:Hset.
  simplify_eq.
  destruct (analysis_setter_attaches _ _ _ _ Hk Hlive Hset) as (-> & Hk1 & Hn1 & Hsame & Ho1).
  assert (Hattached : attached node {| now := w1; pool := [Done (Resolved RUndefined)] |}).
  { split; simpl.
    - by repeat split.
    - intros [|i] t o Hi Hout; simpl in Hi; by simplify_eq.
    - intros [|i] t Hi a Ha; simpl in Hi; by simplify_eq. }
  pose proof (attached_run _ _ _ _ Hattached Hkeep Hrun) as [(_ & Hn & _ & Hout) Ho _].
  split; [| split; [done | split; [done |]]].
  - simpl. split; [done |]. intros o Hw. apply Ho1. congruence.
  - intros i o Hi. by apply (Ho i _ o Hi).
Qed.

Lemma analysis_attached_witness :
  let w := now (after [Call OpAcquireOutput; Tick 0]
                  (fresh_world AnalysisSetterRevision (CtorCreates running))) in
  let m := after [Call (OpSetAnalysis visualizer); Call OpAcquireOutput] w in
  c_output (ctl w) = Some 0
  ∧ analysisNode <$> outputs w !! 0 = Some VNull
  ∧ pool m = [Done (Resolved RUndefined); Done (Resolved (ROutput 0))]
  ∧ analysisNode <$> outputs (now m) !! 0 = Some visualizer.
Proof.
  intros w m.
  destruct (analysis_attached w visualizer [Call OpAcquireOutput] m)
    as (_ & _ & _ & Hnode).
  - vm_compute; reflexivity.
  - reflexivity.
  - intros o Ho. vm_compute in Ho. injection Ho as <-. vm_compute. lia.
  - repeat constructor.
  - vm_compute; reflexivity.
  - split; [vm_compute; reflexivity |]. split; [vm_compute; reflexivity |].
    split; [vm_compute; reflexivity |].
    apply (Hnode 1 0). vm_compute; reflexivity.
Defined.

(** The node set before any Output exists is attached to the Output that
    [acquireOutput()] builds later. *)
Lemma analysis_reattached_example :
  let m := after [Call (OpSetAnalysis visualizer); Call OpAcquireOutput; Tick 1]
             (fresh_world AnalysisSetterRevision (CtorCreates running)) in
  pool m = [Done (Resolved RUndefined); Done (Resolved (ROutput 0))]
  ∧ analysisNode <$> outputs (now m) !! 0 = Some visualizer
  ∧ trace (now m)
    = [EvFetch; EvNewContext 0; EvLog 0; EvNewOutput 0 0; EvSetVolume 0 1%float;
       EvConnectAnalysis 0 visualizer].
Proof. vm_compute. repeat split. Qed.

(** ** Failure of the provider *)

(** The provider never settles with an absent context: it resolves with the
    cached context or the new one, or it rejects. *)
Lemma getSharedAudioContext_never_null (w : world) :
  snd (getSharedAudioContext w) ≠ ProviderSettled (Resolved None).
Proof. unfold getSharedAudioContext, create_context. repeat case_match; simpl; congruence. Qed.

Lemma call_nonnull (op : operation) (w w1 : world) (t : thread) :
  call op w = (w1, t) -> nonnull t.
Proof. intros Hcall. destruct op; unfold_code; split_cases; done. Qed.

Lemma step_nonnull (a : action) (m m1 : machine) :
  Forall nonnull (pool m) -> step a m = Some m1 -> Forall nonnull (pool m1).
Proof.
  intros Hp Hstep. destruct a as [op|i|i|i e|b|c s]; simpl in Hstep.
  - destruct (call op (now m)) as [w t] eqn:Hcall. simplify_eq; simpl.
    apply Forall_app. split; [done |]. constructor; [| done]. by eapply call_nonnull.
  - destruct (pool m !! i) as [t|] eqn:Hi; [| done].
    pose proof (proj1 (Forall_lookup _ _) Hp i t Hi) as Ht.
    destruct t as [c k|r k|r a|r]; try done.
    + destruct (acquireOutput_continue r (now m)) as [w r1] eqn:Hk. simplify_eq; simpl.
      apply Forall_insert; [done |].
      destruct k, r as [[c|]|e]; unfold_code; split_cases; done.
    + destruct (awaiter_continue a r (now m)) as [w r1] eqn:Hk. simplify_eq; simpl.
      apply Forall_insert; [done |].
      destruct a, r as [[o|]|e]; unfold_code; split_cases; done.
  - destruct (pool m !! i) as [t|] eqn:Hi; [| done].
    destruct t as [c k|r k|r a|r]; try done. simpl in Hstep. simplify_eq; simpl.
    by apply Forall_insert.
  - destruct (pool m !! i) as [t|] eqn:Hi; [| done].
    destruct t as [c k|r k|r a|r]; try done. simplify_eq; simpl.
    by apply Forall_insert.
  - by simplify_eq.
  - by simplify_eq.
Qed.

(** Whatever the schedule, no call of [acquireOutput()] resolves to null:
    the exit [if (!audioContext) return null] is never taken. *)
Lemma acquireOutput_never_null (schedule : list action) (w : world) (m : machine) (i : nat) :
  run schedule (boot w) = Some m -> pool m !! i ≠ Some (Done (Resolved RNull)).
Proof.
  intros Hrun Hi.
  assert (Hall : Forall nonnull (pool m)).
  { clear Hi. revert Hrun. generalize (boot w), (Forall_nil_2 nonnull : Forall nonnull (pool (boot w))).
    induction schedule as [|a rest IH]; intros m0 Hm0 Hrun.
    - simpl in Hrun. by simplify_eq.
    - apply run_cons in Hrun as (m1 & Hstep & Hrun).
      apply (IH m1); [| done]. by apply (step_nonnull a m0). }
  by apply (proj1 (Forall_lookup _ _) Hall i _ Hi).
Qed.

(** C2, on the code: when [resume()] rejects with [e], or when the context
    cannot be constructed, [acquireOutput()] does not resolve to null: its
    promise is rejected, and so are those of [setVolume] and of [playSound]
    for a registered sound. *)
Theorem provider_failure_rejects (rev : revision) (e : error) :
  let blocked := fst (addSound "coin" coin (fresh_world rev (CtorCreates suspended))) in
  let missing := fst (addSound "coin" coin (fresh_world rev CtorAbsent)) in
  let broken := fst (addSound "coin" coin (fresh_world rev (CtorThrows e))) in
  pool <$> run [Call OpAcquireOutput; ResumeRejects 0 e; Tick 0] (boot blocked)
  = Some [Done (Rejected e)]
  ∧ pool <$> run [Call (OpSetVolume 0.5%float); ResumeRejects 0 e; Tick 0; Tick 0] (boot blocked)
    = Some [Done (Rejected e)]
  ∧ pool <$> run [Call (OpPlaySound "coin"); ResumeRejects 0 e; Tick 0; Tick 0] (boot blocked)
    = Some [Done (Rejected e)]
  ∧ pool <$> run [Call OpAcquireOutput; Tick 0] (boot missing)
    = Some [Done (Rejected (TypeError "not a constructor"))]
  ∧ pool <$> run [Call OpAcquireOutput; Tick 0] (boot broken)
    = Some [Done (Rejected e)]
  ∧ pool <$> run [Call (OpSetVolume 0.5%float); Tick 0; Tick 0] (boot broken)
    = Some [Done (Rejected e)].
Proof. destruct rev; vm_compute; repeat split. Qed.

(** ** Disposal *)

Import Lifecycle.

Lemma disposals_app (l1 l2 : list invocation) :
  disposals (l1 ++ l2) = disposals l1 + disposals l2.
Proof. induction l1 as [|[o|o] l1 IH]; simpl; [done | done | by rewrite IH]. Qed.

Lemma dispose_releases (s : state) : c_output (ctl (base (fst (dispose s)))) = None.
Proof. unfold dispose. by destruct (c_output (ctl (base s))) eqn:Hout. Qed.

(** C8: [dispose()] does not raise, with or without an Output; it invokes
    [onOutputDisposed] exactly once when an Output is live (and the
    callback is registered), with that Output; and a second [dispose()]
    in succession changes nothing: the callback is not called again. *)
Theorem dispose_idempotent (s : state) :
  snd (dispose s) = Resolved RUndefined
  ∧ snd (dispose (fst (dispose s))) = Resolved RUndefined
  ∧ fst (dispose (fst (dispose s))) = fst (dispose s)
  ∧ disposals (invoked (fst (dispose s))) = disposals (invoked s) + owed s
  ∧ disposals (invoked (fst (dispose (fst (dispose s))))) = disposals (invoked s) + owed s
  ∧ (c_output (ctl (base s)) = None -> fst (dispose s) = s)
  ∧ (∀ o, c_output (ctl (base s)) = Some o -> onOutputDisposed (opts s) = true ->
          invoked (fst (dispose s)) = invoked s ++ [OutputDisposed o]).
Proof.
  assert (Hsecond : fst (dispose (fst (dispose s))) = fst (dispose s)).
  { pose proof (dispose_releases s) as Hnone.
    unfold dispose at 1. by rewrite Hnone. }
  assert (Hcount : disposals (invoked (fst (dispose s))) = disposals (invoked s) + owed s).
  { unfold dispose, owed. destruct (c_output (ctl (base s))) as [o|]; simpl; [| lia].
    destruct (onOutputDisposed (opts s)); rewrite ?disposals_app; simpl; lia. }
  split; [unfold dispose; by destruct (c_output (ctl (base s))) |].
  split; [unfold dispose at 1; by rewrite dispose_releases |].
  split; [done |]. split; [done |]. split; [by rewrite Hsecond |]. split.
  - intros Hnone. unfold dispose. by rewrite Hnone.
  - intros o Hout Hreg. unfold dispose. rewrite Hout; simpl. by rewrite Hreg.
Qed.

(** After [acquireOutput()] succeeded on a page like the one of the tests,
    with [onOutputDisposed] registered: the first [dispose()] invokes the
    callback with Output 0, the second does not. *)
Lemma dispose_twice :
  let s := {| base := now (after [Call OpAcquireOutput; Tick 0]
                             (fresh_world VisualizerRevision (CtorCreates running)));
              opts := {| onOutputCreated := false; onOutputDisposed := true |};
              invoked := [] |} in
  invoked (fst (dispose s)) = [OutputDisposed 0]
  ∧ invoked (fst (dispose (fst (dispose s)))) = [OutputDisposed 0].
Proof.
  intros s.
  destruct (dispose_idempotent s) as (_ & _ & Hsame & _ & _ & _ & Hfirst).
  rewrite Hsame. split; apply (Hfirst 0); vm_compute; reflexivity.
Defined.

(** * The rest of the Controller: properties *)

(** ** Running a schedule step by step *)

Lemma run_step (a : action) (rest : list action) (m m1 : machine) :
  step a m = Some m1 -> run (a :: rest) m = run rest m1.
Proof. intros Hstep. simpl. by rewrite Hstep. Qed.

Lemma run_app (s1 s2 : list action) (m : machine) :
  run (s1 ++ s2) m = run s1 m ≫= run s2.
Proof.
  revert m. induction s1 as [|a s1 IH]; intros m; simpl; [done |].
  destruct (step a m) as [m1|]; [apply IH | done].
Qed.

Lemma step_call (op : operation) (m : machine) (w1 : world) (t : thread) :
  call op (now m) = (w1, t) ->
  step (Call op) m = Some {| now := w1; pool := pool m ++ [t] |}.
Proof. intros Hcall. simpl. by rewrite Hcall. Qed.

Lemma step_tick_context (i : nat) (m : machine) (r : settled (option nat)) (k : caller)
    (w1 : world) (r1 : settled (option nat)) :
  pool m !! i = Some (AwaitContext r k) ->
  acquireOutput_continue r (now m) = (w1, r1) ->
  step (Tick i) m = Some {| now := w1; pool := <[i := acquired k r1]> (pool m) |}.
Proof. intros Hi Hk. simpl. by rewrite Hi, Hk. Qed.

Lemma step_tick_output (i : nat) (m : machine) (r : settled (option nat)) (a : awaiter)
    (w1 : world) (r1 : settled jsresult) :
  pool m !! i = Some (AwaitOutput r a) ->
  awaiter_continue a r (now m) = (w1, r1) ->
  step (Tick i) m = Some {| now := w1; pool := <[i := Done r1]> (pool m) |}.
Proof. intros Hi Hk. simpl. by rewrite Hi, Hk. Qed.

(** ** The registry *)

Lemma getSound_own (name : string) (v : value) (w : world) :
  own (c_sounds (ctl w)) !! name = Some v -> getSound name w = v.
Proof. intros Hown. unfold getSound, js_get. by rewrite Hown. Qed.

Lemma getSound_inherited (name : string) (w : world) :
  own (c_sounds (ctl w)) !! name = None ->
  getSound name w = inherited (host w) (c_sounds (ctl w)) name.
Proof.
  intros Hown. unfold getSound, inherited, js_get, via_proto_accessor; simpl.
  by rewrite Hown, lookup_empty.
Qed.

Lemma getSound_same_own (name : string) (w w1 : world) :
  host w1 = host w ->
  proto (c_sounds (ctl w1)) = proto (c_sounds (ctl w)) ->
  own (c_sounds (ctl w1)) !! name = own (c_sounds (ctl w)) !! name ->
  getSound name w1 = getSound name w.
Proof.
  intros Hh Hp Ho. unfold getSound, js_get, via_proto_accessor.
  by rewrite Hh, Hp, Ho.
Qed.

Lemma proto_addSound (name : string) (v : value) (w : world) :
  name ≠ "__proto__" ->
  proto (c_sounds (ctl (fst (addSound name v w)))) = proto (c_sounds (ctl w)).
Proof.
  intros Hne. unfold addSound, js_set; simpl.
  rewrite via_proto_accessor_other by done.
  by destruct (own (c_sounds (ctl w)) !! name).
Qed.

(** X1: [addSound] then [getSound] is a round trip for any name but
    [__proto__]: the value stored is the value read and the value returned;
    every other name reads as before; storing again under the same name
    overwrites, and the names listed stay the same, without duplicates. *)
Theorem addSound_getSound (name : string) (v : value) (w : world) :
  name ≠ "__proto__" ->
  let w1 := fst (addSound name v w) in
  snd (addSound name v w) = v
  ∧ getSound name w1 = v
  ∧ (∀ other, other ≠ name -> getSound other w1 = getSound other w)
  ∧ (∀ other, other ∈ listSounds w1 ↔ other = name ∨ other ∈ listSounds w)
  ∧ (∀ v2, getSound name (fst (addSound name v2 w1)) = v2
           ∧ listSounds (fst (addSound name v2 w1)) = listSounds w1)
  ∧ NoDup (listSounds w1).
Proof.
  intros Hne w1. split; [done |]. split; [by apply getSound_addSound |].
  split; [| split; [| split]].
  - intros other Hother. apply getSound_same_own; [done | by apply proto_addSound |].
    subst w1. rewrite own_addSound by done. by rewrite lookup_insert_ne.
  - intros other. unfold listSounds. rewrite !elem_of_Object_keys. subst w1.
    rewrite own_addSound by done. rewrite lookup_insert_is_Some.
    destruct (decide (name = other)) as [-> | Hother]; intuition congruence.
  - intros v2. split; [by apply getSound_addSound |].
    unfold listSounds, Object_keys. subst w1.
    rewrite !own_addSound by done. by rewrite insert_insert_eq, !dom_insert_L.
  - unfold listSounds, Object_keys. apply NoDup_elements.
Qed.

Lemma addSound_getSound_witness :
  let w1 := fst (addSound "coin" coin (fresh_world VisualizerRevision (CtorCreates running))) in
  getSound "coin" w1 = coin ∧ getSound "laser" w1 = VUndefined.
Proof.
  intros w1.
  destruct (addSound_getSound "coin" coin
              (fresh_world VisualizerRevision (CtorCreates running)) ltac:(done))
    as (_ & Hget & Hother & _).
  split; [exact Hget |]. subst w1. rewrite (Hother "laser" ltac:(done)).
  vm_compute; reflexivity.
Defined.

(** X2: [removeSound(name)] touches no other entry: any other name reads as
    before and is listed exactly when it was, whatever [removeSound]
    returns. *)
Theorem removeSound_other (name other : string) (w : world) :
  other ≠ name ->
  getSound other (fst (removeSound name w)) = getSound other w
  ∧ (other ∈ listSounds (fst (removeSound name w)) ↔ other ∈ listSounds w).
Proof.
  intros Hother. unfold removeSound.
  destruct (truthy (js_get (host w) (c_sounds (ctl w)) name)); simpl; [| done].
  split.
  - apply getSound_same_own; [done | done |]. simpl. by rewrite lookup_delete_ne.
  - unfold listSounds. rewrite !elem_of_Object_keys. simpl. by rewrite lookup_delete_ne.
Qed.

Lemma removeSound_other_witness :
  let w := fst (addSound "laser" (VObject 12)
             (fst (addSound "coin" coin (fresh_world VisualizerRevision (CtorCreates running))))) in
  snd (removeSound "coin" w) = true
  ∧ getSound "laser" (fst (removeSound "coin" w)) = VObject 12.
Proof.
  intros w. split; [vm_compute; reflexivity |].
  rewrite (proj1 (removeSound_other "coin" "laser" w ltac:(done))).
  vm_compute; reflexivity.
Defined.

(** X3: after [removeSound(name)] has returned true, [this.#sounds[name]] is
    what the prototype of the registry gives for the name; when that is
    nothing truthy, [playSound(name)] (at any volume above 0) only warns,
    and [stopSound(name)] only warns: no Sound is called, nothing raises. *)
Theorem removed_sound_is_unknown (name : string) (w : world) :
  snd (removeSound name w) = true ->
  truthy (inherited (host w) (c_sounds (ctl w)) name) = false ->
  PrimFloat.leb (c_volume (ctl w)) 0%float = false ->
  let w1 := fst (removeSound name w) in
  getSound name w1 = inherited (host w) (c_sounds (ctl w)) name
  ∧ playSound name w1 = (emit (EvWarn name) w1, Done (Resolved RUndefined))
  ∧ stopSound name w1 = (emit (EvWarn name) w1, Resolved RUndefined).
Proof.
  intros Hremoved Hmiss Hvol w1.
  assert (Hw1 : w1 = with_ctl (upd_sounds (js_delete name (c_sounds (ctl w))) (ctl w)) w).
  { subst w1. rewrite removeSound_result in Hremoved. by rewrite removeSound_true. }
  assert (Hget : getSound name w1 = inherited (host w) (c_sounds (ctl w)) name).
  { rewrite getSound_inherited; rewrite Hw1; simpl; [done | apply lookup_delete_eq]. }
  split; [done |].
  unfold playSound, stopSound. unfold getSound in Hget. rewrite Hget, Hmiss.
  replace (c_volume (ctl w1)) with (c_volume (ctl w)) by by rewrite Hw1.
  by rewrite Hvol.
Qed.

Lemma removed_sound_is_unknown_witness :
  let w := fst (addSound "coin" coin (fresh_world VisualizerRevision (CtorCreates running))) in
  let w1 := fst (removeSound "coin" w) in
  playSound "coin" w1 = (emit (EvWarn "coin") w1, Done (Resolved RUndefined)).
Proof.
  intros w w1.
  destruct (removed_sound_is_unknown "coin" w) as (_ & Hplay & _).
  - vm_compute; reflexivity.
  - vm_compute; reflexivity.
  - vm_compute; reflexivity.
  - exact Hplay.
Defined.

(** X4: a Sound stored by [addSound] is the one [stopSound] stops: when the
    value is truthy and its [stop] can be called, [stopSound(name)] calls
    [stop()] on it once, does not raise, and leaves the Controller, the
    Outputs and the contexts as they were. *)
Theorem stopSound_after_addSound (name : string) (v : value) (w : world) :
  name ≠ "__proto__" ->
  truthy v = true ->
  callable (host w) (host_get (host w) v "stop") = true ->
  let w1 := fst (addSound name v w) in
  stopSound name w1 = (emit (stop_event v) w1, Resolved RUndefined)
  ∧ ctl (fst (stopSound name w1)) = ctl w1
  ∧ outputs (fst (stopSound name w1)) = outputs w
  ∧ fetches (fst (stopSound name w1)) = fetches w.
Proof.
  intros Hne Hv Hstop w1.
  assert (Hget : getSound name w1 = v) by by apply getSound_addSound.
  assert (Heq : stopSound name w1 = (emit (stop_event v) w1, Resolved RUndefined)).
  { unfold stopSound, invoke. unfold getSound in Hget. rewrite Hget, Hv.
    replace (host w1) with (host w) by done. by rewrite Hstop. }
  rewrite Heq. repeat split.
  unfold fetches; simpl. rewrite count_app; simpl. lia.
Qed.

Lemma stopSound_after_addSound_witness :
  let w1 := fst (addSound "coin" coin (fresh_world VisualizerRevision (CtorCreates running))) in
  stopSound "coin" w1 = (emit (stop_event coin) w1, Resolved RUndefined).
Proof.
  intros w1.
  exact (proj1 (stopSound_after_addSound "coin" coin
                  (fresh_world VisualizerRevision (CtorCreates running))
                  ltac:(done) eq_refl eq_refl)).
Defined.

(** ** [stopAllSounds] *)

Lemma emit_all_frame (es : list event) (w : world) :
  trace (emit_all es w) = trace w ++ es
  ∧ host (emit_all es w) = host w
  ∧ ctl (emit_all es w) = ctl w
  ∧ outputs (emit_all es w) = outputs w
  ∧ contexts (emit_all es w) = contexts w
  ∧ liveAudioContext (emit_all es w) = liveAudioContext w.
Proof.
  revert w. induction es as [|e es IH]; intros w; simpl.
  - by rewrite app_nil_r.
  - destruct (IH (emit e w)) as (H1 & H2 & H3 & H4 & H5 & H6).
    rewrite H1, H2, H3, H4, H5, H6. simpl. by rewrite <- app_assoc.
Qed.

Lemma invoke_stop_stoppable (v : value) (w : world) :
  stoppable (host w) v = true ->
  invoke_stop v w = (emit (stop_event v) w, Resolved RUndefined).
Proof.
  unfold stoppable, invoke_stop, invoke, stop_event. intros Hv.
  destruct v; try done; by rewrite Hv.
Qed.

Lemma invoke_stop_unstoppable (v : value) (w : world) :
  stoppable (host w) v = false ->
  ∃ message, invoke_stop v w = (w, Rejected (TypeError message)).
Proof.
  unfold stoppable, invoke_stop, invoke. intros Hv.
  destruct v; try rewrite Hv; by eexists.
Qed.

Lemma stop_each_all (l : list value) (w : world) :
  Forall (λ v, stoppable (host w) v = true) l ->
  stop_each l w = (emit_all (stop_event <$> l) w, Resolved RUndefined).
Proof.
  revert w. induction l as [|v l IH]; intros w Hall; [done |].
  apply Forall_cons in Hall as [Hv Hl]. simpl.
  rewrite (invoke_stop_stoppable _ _ Hv). by apply IH.
Qed.

Lemma stop_each_aborts (l : list value) (w : world) :
  Exists (λ v, stoppable (host w) v = false) l ->
  ∃ l1 bad l2 message,
    l = l1 ++ bad :: l2
    ∧ Forall (λ v, stoppable (host w) v = true) l1
    ∧ stoppable (host w) bad = false
    ∧ stop_each l w = (emit_all (stop_event <$> l1) w, Rejected (TypeError message)).
Proof.
  revert w. induction l as [|v l IH]; intros w Hex; [by apply Exists_nil in Hex |].
  destruct (stoppable (host w) v) eqn:Hv.
  - apply Exists_cons in Hex as [Hbad | Hex]; [congruence |].
    destruct (IH (emit (stop_event v) w) Hex) as (l1 & bad & l2 & message & -> & H1 & H2 & H3).
    exists (v :: l1), bad, l2, message. split; [done |]. split; [by constructor |].
    split; [done |]. simpl. by rewrite (invoke_stop_stoppable _ _ Hv).
  - destruct (invoke_stop_unstoppable _ _ Hv) as [message Hm].
    exists [], v, l, message. split; [done |]. split; [done |]. split; [done |].
    simpl. by rewrite Hm.
Qed.

(** The order of the own properties *)

Lemma insert_by_index_Permutation (name : string) (l : list string) :
  insert_by_index name l ≡ₚ name :: l.
Proof.
  induction l as [|other rest IH]; simpl; [done |].
  destruct (index_of name <=? index_of other)%N; [done |].
  rewrite IH. apply Permutation_swap.
Qed.

Lemma by_index_Permutation (l : list string) : by_index l ≡ₚ l.
Proof.
  induction l as [|name l IH]; simpl; [done |].
  by rewrite insert_by_index_Permutation, IH.
Qed.

Lemma insert_by_index_sorted (name : string) (l : list string) :
  Sorted (λ a b, (index_of a ≤ index_of b)%N) l ->
  Sorted (λ a b, (index_of a ≤ index_of b)%N) (insert_by_index name l).
Proof.
  induction 1 as [|other rest Hrest IH Hhd]; simpl; [by repeat constructor |].
  destruct (index_of name <=? index_of other)%N eqn:Hle.
  - apply N.leb_le in Hle. by repeat constructor.
  - apply N.leb_gt in Hle. constructor; [done |].
    destruct Hhd as [|next rest Hnext]; simpl.
    + constructor. lia.
    + destruct (index_of name <=? index_of next)%N; constructor; [lia | done].
Qed.

(** The array indices come in ascending order. *)
Lemma by_index_sorted (l : list string) :
  Sorted (λ a b, (index_of a ≤ index_of b)%N) (by_index l).
Proof.
  induction l as [|name l IH]; simpl; [constructor | by apply insert_by_index_sorted].
Qed.

Lemma OwnPropertyKeys_Permutation (o : JSObject) : OwnPropertyKeys o ≡ₚ created o.
Proof.
  unfold OwnPropertyKeys. rewrite by_index_Permutation. apply filter_app_complement.
Qed.

Lemma ordered_empty_object : ordered empty_object.
Proof.
  split; simpl; [constructor |]. intros name. rewrite lookup_empty.
  split; [by intros ?%elem_of_nil | by intros [? ?]].
Qed.

Lemma ordered_js_set (H : Host) (name : string) (v : value) (o : JSObject) :
  ordered o -> ordered (js_set H name v o).
Proof.
  intros [Hnodup Hdom]. unfold js_set.
  destruct (own o !! name) as [v0|] eqn:Hown.
  - split; simpl; [done |]. intros other. rewrite Hdom.
    destruct (decide (other = name)) as [-> | Hne].
    + rewrite lookup_insert_eq, Hown. by split.
    + by rewrite lookup_insert_ne.
  - destruct (via_proto_accessor H o name); [by destruct v |].
    split; simpl.
    + apply NoDup_app. split; [done |]. split; [| apply NoDup_singleton].
      intros other Hin ->%list_elem_of_singleton.
      apply Hdom in Hin as [? ?]. congruence.
    + intros other. rewrite elem_of_app, list_elem_of_singleton, Hdom.
      destruct (decide (other = name)) as [-> | Hne].
      * rewrite lookup_insert_eq. split; [by eexists | by right].
      * rewrite lookup_insert_ne by done. split; [by intros [? | ?] | by left].
Qed.

Lemma ordered_js_delete (name : string) (o : JSObject) :
  ordered o -> ordered (js_delete name o).
Proof.
  intros [Hnodup Hdom]. split; simpl; [by apply NoDup_filter |].
  intros other. rewrite list_elem_of_filter, Hdom.
  destruct (decide (other = name)) as [-> | Hne].
  - rewrite lookup_delete_eq. split; [by intros [? _] | by intros [? ?]].
  - rewrite lookup_delete_ne by done. split; [by intros [_ ?] | done].
Qed.

(** A registry of a new Controller is ordered, and every call keeps it so. *)
Lemma ordered_call (op : operation) (w w1 : world) (t : thread) :
  ordered (c_sounds (ctl w)) -> call op w = (w1, t) -> ordered (c_sounds (ctl w1)).
Proof.
  intros Hord Hcall.
  destruct op;
    try (unfold call, addSound in Hcall; simplify_eq; simpl; by apply ordered_js_set);
    unfold_code; split_cases; try done; by apply ordered_js_delete.
Qed.

Lemma ordered_keys (o : JSObject) :
  ordered o ->
  NoDup (OwnPropertyKeys o)
  ∧ (∀ name, name ∈ OwnPropertyKeys o ↔ is_Some (own o !! name))
  ∧ length (OwnPropertyKeys o) = size (own o).
Proof.
  intros [Hnodup Hdom]. pose proof (OwnPropertyKeys_Permutation o) as Hperm.
  split; [by rewrite Hperm |]. split; [intros name; by rewrite Hperm |].
  rewrite Hperm, <- size_dom. unfold size, set_size. simpl.
  apply Permutation_length, NoDup_Permutation; [done | apply NoDup_elements |].
  intros name. by rewrite Hdom, elem_of_elements, elem_of_dom.
Qed.

Lemma omap_lookup_total (m : gmap string value) (l : list string) :
  (∀ name, name ∈ l -> is_Some (m !! name)) ->
  Forall2 (λ name v, m !! name = Some v) l (omap (λ name, m !! name) l).
Proof.
  induction l as [|name l IH]; intros Hl; simpl; [constructor |].
  destruct (Hl name) as [v Hv]; [by left |]. rewrite Hv.
  constructor; [done |]. apply IH. intros other Hin. apply Hl. by right.
Qed.

Lemma omap_lookup_insert_fresh (m : gmap string value) (name : string) (v : value)
    (l : list string) :
  name ∉ l -> omap (λ k, <[name := v]> m !! k) l = omap (λ k, m !! k) l.
Proof.
  induction l as [|k l IH]; intros Hl; [done |].
  apply not_elem_of_cons in Hl as [Hne Hl]. specialize (IH Hl).
  simpl. rewrite lookup_insert_ne by done.
  destruct (m !! k); [f_equal |]; exact IH.
Qed.

(** One value per own property, in the order of the names. *)
Lemma Object_values_keys (o : JSObject) :
  ordered o ->
  Forall2 (λ name v, own o !! name = Some v) (OwnPropertyKeys o) (Object_values o).
Proof.
  intros Hord. apply omap_lookup_total. intros name. by apply (ordered_keys o Hord).
Qed.

Lemma elem_of_Object_values (o : JSObject) (v : value) :
  ordered o ->
  v ∈ Object_values o ↔ ∃ name, own o !! name = Some v.
Proof.
  intros Hord. destruct (ordered_keys o Hord) as (_ & Hdom & _).
  unfold Object_values. rewrite list_elem_of_omap. split.
  - intros (name & _ & Hname). by exists name.
  - intros [name Hname]. exists name. split; [| done]. apply Hdom. by exists v.
Qed.

Lemma length_Object_values (o : JSObject) :
  ordered o -> length (Object_values o) = size (own o).
Proof.
  intros Hord. destruct (ordered_keys o Hord) as (_ & _ & <-).
  symmetry. by apply (Forall2_length _ _ _ (Object_values_keys o Hord)).
Qed.

(** A property created under a name that is not an array index comes last;
    writing to an existing property leaves it in its place. *)
Lemma OwnPropertyKeys_js_set_new (H : Host) (name : string) (v : value) (o : JSObject) :
  own o !! name = None ->
  name ≠ "__proto__" ->
  array_index name = None ->
  OwnPropertyKeys (js_set H name v o) = OwnPropertyKeys o ++ [name].
Proof.
  intros Hown Hname Hindex. unfold js_set.
  rewrite Hown, (via_proto_accessor_other H o name Hname).
  unfold OwnPropertyKeys. simpl. rewrite !filter_app.
  rewrite (filter_cons_False (λ x, is_Some (array_index x)))
    by (rewrite Hindex; by intros [? ?]).
  rewrite (filter_cons_True (λ x, ¬ is_Some (array_index x)))
    by (rewrite Hindex; by intros [? ?]).
  simpl. by rewrite app_nil_r, app_assoc.
Qed.

Lemma OwnPropertyKeys_js_set_old (H : Host) (name : string) (v v0 : value) (o : JSObject) :
  own o !! name = Some v0 ->
  OwnPropertyKeys (js_set H name v o) = OwnPropertyKeys o.
Proof. intros Hown. unfold js_set. by rewrite Hown. Qed.

Lemma Object_values_js_set_new (H : Host) (name : string) (v : value) (o : JSObject) :
  ordered o ->
  own o !! name = None ->
  name ≠ "__proto__" ->
  array_index name = None ->
  Object_values (js_set H name v o) = Object_values o ++ [v].
Proof.
  intros Hord Hown Hname Hindex. unfold Object_values.
  rewrite (OwnPropertyKeys_js_set_new H name v o Hown Hname Hindex).
  unfold js_set. rewrite Hown, (via_proto_accessor_other H o name Hname). simpl.
  rewrite omap_app. simpl. rewrite lookup_insert_eq. f_equal.
  apply omap_lookup_insert_fresh. intros Hin.
  apply (ordered_keys o Hord) in Hin as [? ?]. congruence.
Qed.

Lemma stop_events_frame (l : list value) (w : world) :
  fetches (emit_all (stop_event <$> l) w) = fetches w.
Proof.
  destruct (emit_all_frame (stop_event <$> l) w) as (Ht & _).
  unfold fetches. rewrite Ht, count_app.
  assert (Hnone : count is_fetch (stop_event <$> l) = 0) by (clear; induction l; simpl; done).
  lia.
Qed.

(** X5: when [stop()] can be called on every value in the registry,
    [stopAllSounds()] calls it once per entry and on nothing else, in the
    order in which JavaScript lists the own properties (names that are
    array indices first, ascending, then the other names in the order in
    which they were first added), does not raise, and leaves the Controller,
    the Outputs and the provider alone; on an empty registry it does
    nothing.  In particular a Sound added under a new name that is not an
    array index is the last to be stopped. *)
Theorem stopAllSounds_stops_every_sound (w : world) :
  ordered (c_sounds (ctl w)) ->
  (∀ name v, own (c_sounds (ctl w)) !! name = Some v -> stoppable (host w) v = true) ->
  let names := OwnPropertyKeys (c_sounds (ctl w)) in
  let values := Object_values (c_sounds (ctl w)) in
  snd (stopAllSounds w) = Resolved RUndefined
  ∧ trace (fst (stopAllSounds w)) = trace w ++ (stop_event <$> values)
  ∧ Forall2 (λ name v, own (c_sounds (ctl w)) !! name = Some v) names values
  ∧ NoDup names
  ∧ (∀ name, name ∈ names ↔ is_Some (own (c_sounds (ctl w)) !! name))
  ∧ length values = size (own (c_sounds (ctl w)))
  ∧ (own (c_sounds (ctl w)) = ∅ -> fst (stopAllSounds w) = w)
  ∧ ctl (fst (stopAllSounds w)) = ctl w
  ∧ outputs (fst (stopAllSounds w)) = outputs w
  ∧ fetches (fst (stopAllSounds w)) = fetches w
  ∧ (∀ name v, own (c_sounds (ctl w)) !! name = None ->
       name ≠ "__proto__" ->
       array_index name = None ->
       stoppable (host w) v = true ->
       stopAllSounds (fst (addSound name v w))
       = (emit_all (stop_event <$> values ++ [v]) (fst (addSound name v w)),
          Resolved RUndefined)).
Proof.
  intros Hord Hall names values.
  assert (Hforall : Forall (λ v, stoppable (host w) v = true) values).
  { apply Forall_forall. intros v Hv.
    apply (elem_of_Object_values _ _ Hord) in Hv as [name Hname]. by apply (Hall name). }
  destruct (ordered_keys _ Hord) as (Hnodup & Hdom & Hlen).
  unfold stopAllSounds. fold values. rewrite (stop_each_all _ _ Hforall). simpl.
  destruct (emit_all_frame (stop_event <$> values) w) as (H1 & _ & H3 & H4 & _).
  split; [done |]. split; [done |].
  split; [by apply Object_values_keys |].
  split; [done |]. split; [done |].
  split; [by apply length_Object_values |].
  split.
  { intros Hempty. pose proof (length_Object_values _ Hord) as Hzero.
    rewrite Hempty, map_size_empty in Hzero. fold values in Hzero.
    by destruct values. }
  split; [done |]. split; [done |].
  split; [apply stop_events_frame |].
  intros name v Hnew Hname Hindex Hv. unfold addSound. simpl.
  rewrite (Object_values_js_set_new _ _ _ _ Hord Hnew Hname Hindex). fold values.
  apply stop_each_all. simpl. apply Forall_app. split; [done | by constructor].
Qed.

Lemma stopAllSounds_stops_every_sound_witness :
  trace (fst (stopAllSounds two_sounds)) = [stop_event (VObject 12); stop_event coin]
  ∧ snd (stopAllSounds two_sounds) = Resolved RUndefined.
Proof.
  destruct (stopAllSounds_stops_every_sound two_sounds) as (Hr & Ht & _).
  - unfold two_sounds, addSound. simpl. do 2 apply ordered_js_set. apply ordered_empty_object.
  - intros name v Hv. apply (elem_of_map_to_list (own (c_sounds (ctl two_sounds)))) in Hv.
    vm_compute in Hv. repeat (apply elem_of_cons in Hv as [Hv | Hv]; [by simplify_eq |]).
    by apply elem_of_nil in Hv.
  - split; [rewrite Ht; vm_compute; reflexivity | exact Hr].
Defined.

(** The names that are array indices come first, in ascending order, then
    the others as they were added: ["2"], ["10"], then ["b"] and ["01"]. *)
Lemma stopAllSounds_numbered_sounds :
  trace (fst (stopAllSounds numbered_sounds))
  = stop_event <$> [VObject 16; VObject 14; VObject 12; VObject 18].
Proof. vm_compute; reflexivity. Qed.

(** X6: when some value in the registry cannot be stopped (a [null] entry,
    an object without a callable [stop]), [stopAllSounds()] raises a
    TypeError at the first such value in the order in which JavaScript
    lists the own properties; the values before it were stopped, the values
    after it are not. *)
Theorem stopAllSounds_aborts (w : world) (name : string) (v : value) :
  ordered (c_sounds (ctl w)) ->
  own (c_sounds (ctl w)) !! name = Some v ->
  stoppable (host w) v = false ->
  ∃ l1 bad l2 message,
    Object_values (c_sounds (ctl w)) = l1 ++ bad :: l2
    ∧ Forall (λ v1, stoppable (host w) v1 = true) l1
    ∧ stoppable (host w) bad = false
    ∧ snd (stopAllSounds w) = Rejected (TypeError message)
    ∧ trace (fst (stopAllSounds w)) = trace w ++ (stop_event <$> l1)
    ∧ length (stop_event <$> l1) < size (own (c_sounds (ctl w))).
Proof.
  intros Hord Hname Hv.
  assert (Hex : Exists (λ v1, stoppable (host w) v1 = false) (Object_values (c_sounds (ctl w)))).
  { apply Exists_exists. exists v. split; [| done].
    apply (elem_of_Object_values _ _ Hord). by exists name. }
  destruct (stop_each_aborts _ _ Hex) as (l1 & bad & l2 & message & Hsplit & H1 & H2 & H3).
  exists l1, bad, l2, message. unfold stopAllSounds. rewrite H3. simpl.
  destruct (emit_all_frame (stop_event <$> l1) w) as (Ht & _).
  repeat split; try done.
  pose proof (length_Object_values _ Hord) as Hlen.
  rewrite Hsplit, length_app in Hlen. simpl in Hlen. rewrite length_fmap. lia.
Qed.

Lemma stopAllSounds_aborts_witness :
  (∃ message, snd (stopAllSounds null_entry) = Rejected (TypeError message))
  ∧ trace (fst (stopAllSounds null_entry)) = [].
Proof.
  destruct (stopAllSounds_aborts null_entry "mute" VNull)
    as (l1 & bad & l2 & message & Hsplit & Hl1 & _ & Hr & Ht & _).
  - unfold null_entry, addSound. simpl. do 2 apply ordered_js_set. apply ordered_empty_object.
  - vm_compute; reflexivity.
  - reflexivity.
  - split; [by exists message |]. rewrite Ht.
    destruct l1 as [|v1 l1]; [vm_compute; reflexivity |].
    apply Forall_cons in Hl1 as [Hv1 _].
    assert (Hvalues : Object_values (c_sounds (ctl null_entry)) = [VNull; coin])
      by (vm_compute; reflexivity).
    rewrite Hvalues in Hsplit. simpl in Hsplit. injection Hsplit as <- _.
    discriminate Hv1.
Defined.

(** With the [null] entry added after the Sound, the Sound is stopped
    before the exception. *)
Lemma stopAllSounds_aborts_late :
  trace (fst (stopAllSounds null_last)) = [stop_event coin]
  ∧ snd (stopAllSounds null_last) = Rejected (TypeError "cannot read properties").
Proof. split; vm_compute; reflexivity. Qed.

(** ** The shared context *)

Lemma on_context_alter (c n i : nat) (f : Output -> Output) (l : list Output) :
  (∀ out, audioContext (f out) = audioContext out) ->
  on_context c n l -> on_context c n (alter f i l).
Proof.
  intros Hf [Hn Hl]. split; rewrite length_alter; [done |].
  intros o H1 H2. apply field_alter_kept; [done | by apply Hl].
Qed.

Lemma on_context_snoc (c n : nat) (x : Output) (l : list Output) :
  audioContext x = c -> on_context c n l -> on_context c n (l ++ [x]).
Proof.
  intros Hx [Hn Hl]. split; rewrite length_app; simpl; [lia |].
  intros o H1 H2. destruct (decide (o = length l)) as [-> | Hne].
  - rewrite lookup_app_r by lia. rewrite Nat.sub_diag. simpl. by rewrite Hx.
  - apply field_snoc. apply Hl; lia.
Qed.

Ltac solve_on_context :=
  repeat first
    [ done
    | apply on_context_alter; [by intros [] |]
    | apply on_context_snoc; [done |] ].

Lemma getSharedAudioContext_cached (c : nat) (w : world) :
  liveAudioContext w = Some c ->
  contexts w !! c ≠ Some closed ->
  getSharedAudioContext w = (emit EvFetch w, ProviderSettled (Resolved (Some c))).
Proof.
  intros Hslot Hopen. unfold getSharedAudioContext. simpl. rewrite Hslot.
  destruct (contexts w !! c) as [[]|]; done.
Qed.

Lemma call_sharing (c n : nat) (op : operation) (w w1 : world) (t : thread) :
  liveAudioContext w = Some c ->
  contexts w !! c ≠ Some closed ->
  on_context c n (outputs w) ->
  call op w = (w1, t) ->
  liveAudioContext w1 = Some c
  ∧ contexts w1 = contexts w
  ∧ on_context c n (outputs w1)
  ∧ holds_context c t.
Proof.
  intros Hslot Hopen Hon Hcall.
  pose proof (getSharedAudioContext_cached c w Hslot Hopen) as Hp.
  assert (Hp1 : ∀ x, getSharedAudioContext (with_ctl x w)
                     = (emit EvFetch (with_ctl x w), ProviderSettled (Resolved (Some c))))
    by (intros x; by apply getSharedAudioContext_cached).
  destruct op; unfold call, playSound, setVolume, enableVisualization in Hcall;
    unfold acquireOutput in Hcall; simpl in Hcall;
    repeat (case_match; simpl in *; simplify_eq);
    rewrite ?Hp, ?Hp1 in *; simplify_eq;
    unfold_code; split_cases; (split; [| split; [| split]]); try done; solve_on_context.
Qed.

Lemma acquireOutput_continue_sharing (c n : nat) (r : settled (option nat))
    (w w1 : world) (r1 : settled (option nat)) :
  (∀ c1, r = Resolved (Some c1) -> c1 = c) ->
  on_context c n (outputs w) ->
  acquireOutput_continue r w = (w1, r1) ->
  liveAudioContext w1 = liveAudioContext w
  ∧ contexts w1 = contexts w
  ∧ on_context c n (outputs w1).
Proof.
  intros Hr Hon Hk. destruct r as [[c1|]|e]; [rewrite (Hr c1 eq_refl) in * | |];
    unfold_code; split_cases; (split; [| split]); try done; solve_on_context.
Qed.

Lemma awaiter_continue_sharing (c n : nat) (a : awaiter) (r : settled (option nat))
    (w w1 : world) (r1 : settled jsresult) :
  on_context c n (outputs w) ->
  awaiter_continue a r w = (w1, r1) ->
  liveAudioContext w1 = liveAudioContext w
  ∧ contexts w1 = contexts w
  ∧ on_context c n (outputs w1).
Proof.
  intros Hon Hk. destruct a, r as [[o|]|e];
    unfold_code; split_cases; (split; [| split]); try done; solve_on_context.
Qed.

Lemma sharing_step (c n k : nat) (a : action) (m m1 : machine) :
  sharing c n k m -> keeps_open c a -> step a m = Some m1 -> sharing c n k m1.
Proof.
  intros [Hslot Hopen Hcount Hon Hthreads] Hkeep Hstep.
  destruct a as [op|i|i|i e|b|c1 s]; simpl in Hstep.
  - destruct (call op (now m)) as [w t] eqn:Hcall. simplify_eq.
    destruct (call_sharing _ _ _ _ _ _ Hslot Hopen Hon Hcall) as (H1 & H2 & H3 & H4).
    split; simpl; try done; try congruence.
    apply Forall_app. split; [done | by constructor].
  - destruct (pool m !! i) as [t|] eqn:Hi; [| done].
    pose proof (proj1 (Forall_lookup _ _) Hthreads i t Hi) as Ht.
    destruct t as [c1 k1|r k1|r a|r]; try done.
    + destruct (acquireOutput_continue r (now m)) as [w r1] eqn:Hk. simplify_eq.
      destruct (acquireOutput_continue_sharing c n r _ _ _
                  ltac:(by intros c1 ->) Hon Hk) as (H1 & H2 & H3).
      split; simpl; try done; try congruence.
      apply Forall_insert; [done |]. by destruct k1, r1 as [[]|].
    + destruct (awaiter_continue a r (now m)) as [w r1] eqn:Hk. simplify_eq.
      destruct (awaiter_continue_sharing c n _ _ _ _ _ Hon Hk) as (H1 & H2 & H3).
      split; simpl; try done; try congruence.
      by apply Forall_insert.
  - destruct (pool m !! i) as [t|] eqn:Hi; [| done].
    pose proof (proj1 (Forall_lookup _ _) Hthreads i t Hi) as Ht.
    by destruct t.
  - destruct (pool m !! i) as [t|] eqn:Hi; [| done].
    pose proof (proj1 (Forall_lookup _ _) Hthreads i t Hi) as Ht.
    by destruct t.
  - simplify_eq. by split.
  - simplify_eq. split; simpl; try done.
    + intros Hclosed. apply list_lookup_insert_Some in Hclosed
        as [(Hc & Hs & _) | [_ Hold]]; [| done].
      subst. by simpl in Hkeep.
    + by rewrite length_insert.
Qed.

(** X7: while the window caches a context [c] that is not closed, and no
    pending call is inside the provider (suspended at [resume()]) or has
    been handed another context, the Controller never creates another
    context: whatever is called from then on and however the calls
    interleave, those already pending included, every fetch returns [c],
    the window keeps [c], and every Output built from then on sits on [c].
    A call suspended at [resume()] is excluded because it caches its own
    context when it is resumed. *)
Theorem cached_context_is_shared (c : nat) (m0 : machine) (schedule : list action)
    (m : machine) :
  liveAudioContext (now m0) = Some c ->
  contexts (now m0) !! c ≠ Some closed ->
  Forall (holds_context c) (pool m0) ->
  Forall (keeps_open c) schedule ->
  run schedule m0 = Some m ->
  liveAudioContext (now m) = Some c
  ∧ length (contexts (now m)) = length (contexts (now m0))
  ∧ length (outputs (now m0)) ≤ length (outputs (now m))
  ∧ ∀ o, length (outputs (now m0)) ≤ o -> o < length (outputs (now m)) ->
         audioContext <$> outputs (now m) !! o = Some c.
Proof.
  intros Hslot Hopen Hpool Hkeep Hrun.
  assert (Hstart : sharing c (length (outputs (now m0))) (length (contexts (now m0))) m0).
  { split; simpl; try done. split; [done |]. intros o H1 H2. lia. }
  assert (Hend : sharing c (length (outputs (now m0))) (length (contexts (now m0))) m).
  { revert Hrun Hstart Hkeep. generalize (length (outputs (now m0))).
    generalize (length (contexts (now m0))). clear. intros k n. revert m0.
    induction schedule as [|a rest IH]; intros m0 Hrun Hm0 Hall.
    - simpl in Hrun. by simplify_eq.
    - apply run_cons in Hrun as (m1 & Hstep & Hrun).
      apply Forall_cons in Hall as [Ha Hrest].
      apply (IH m1); [done | | done]. by apply (sharing_step _ _ _ a m0). }
  destruct Hend as [H1 _ H3 [H4 H5] _]. by repeat split.
Qed.

Lemma cached_context_is_shared_witness :
  let m0 := after [Call OpAcquireOutput; Call (OpSetVolume 0.5%float)]
              (fresh_world VisualizerRevision (CtorCreates running)) in
  let schedule := [HostSetsState 0 suspended; Tick 1; Call OpAcquireOutput; Tick 0;
                   Tick 1] in
  length (pool m0) = 2
  ∧ length (contexts (now (default m0 (run schedule m0)))) = 1
  ∧ audioContext <$> outputs (now (default m0 (run schedule m0))) = [0; 0].
Proof.
  intros m0 schedule.
  destruct (cached_context_is_shared 0 m0 schedule (default m0 (run schedule m0)))
    as (_ & Hcount & _ & _).
  - vm_compute; reflexivity.
  - vm_compute; discriminate.
  - vm_compute. repeat constructor.
  - repeat constructor.
  - vm_compute; reflexivity.
  - split; [vm_compute; reflexivity |].
    split; [rewrite Hcount |]; vm_compute; reflexivity.
Defined.

(** A call suspended at [resume()] is what the hypothesis on the pending
    calls excludes: resumed, it caches its own context in place of the one
    the window had. *)
Lemma pending_resume_replaces_cached_context :
  let m0 := after [Call OpAcquireOutput; HostSetsCtor (CtorCreates running);
                   Call OpAcquireOutput]
              (fresh_world VisualizerRevision (CtorCreates suspended)) in
  liveAudioContext (now m0) = Some 1
  ∧ pool m0 !! 0 = Some (AwaitResume 0 Direct)
  ∧ liveAudioContext (now (default m0 (run [ResumeResolves 0] m0))) = Some 0.
Proof. vm_compute. repeat split. Qed.

Lemma field_snoc_here {A : Type} (field : Output -> A) (x : Output) (l : list Output) :
  field <$> (l ++ [x]) !! length l = Some (field x).
Proof. rewrite lookup_app_r by lia. by rewrite Nat.sub_diag. Qed.

Lemma acquireOutput_continue_builds (c : nat) (w : world) :
  ∃ w1 rest,
    acquireOutput_continue (Resolved (Some c)) w = (w1, Resolved (Some (length (outputs w))))
    ∧ trace w1 = trace w ++ EvNewOutput (length (outputs w)) c
                   :: EvSetVolume (length (outputs w)) (c_volume (ctl w)) :: rest
    ∧ count is_play rest = 0
    ∧ host w1 = host w
    ∧ c_output (ctl w1) = Some (length (outputs w))
    ∧ audioContext <$> outputs w1 !! length (outputs w) = Some c.
Proof.
  unfold acquireOutput_continue, output_setVolume, output_connectAnalysis. cbn.
  destruct (klass (ctl w)); [| destruct (truthy (c_analysis (ctl w)))];
    eexists; eexists; (split; [reflexivity |]); cbn; rewrite <- ?app_assoc; cbn;
    (split; [reflexivity |]); (split; [reflexivity |]); (split; [done |]); (split; [done |]);
    repeat (apply field_alter_kept; [by intros [] |]);
    apply (field_snoc_here audioContext (new_Output _)).
Qed.

Lemma step_resume_resolves (i : nat) (m : machine) (c : nat) (k : caller) :
  pool m !! i = Some (AwaitResume c k) ->
  step (ResumeResolves i) m
  = Some {| now := fst (provider_resumed c (now m));
            pool := <[i := AwaitContext (Resolved (Some c)) k]> (pool m) |}.
Proof. intros Hi. simpl. by rewrite Hi. Qed.

Lemma insert_snoc {A : Type} (l : list A) (x y : A) : <[length l := y]> (l ++ [x]) = l ++ [y].
Proof.
  rewrite insert_app_r_alt by lia. by rewrite Nat.sub_diag.
Qed.

(** X8: a Controller that holds no Output yet replaces a cached context
    that is closed: [acquireOutput()] creates a new context, waits for its
    [resume()] when it starts suspended, caches it in the window in place of
    the closed one, and builds the Output on the new context.  (A
    Controller that already holds an Output replaces nothing: it never
    enters the provider again.) *)
Theorem closed_context_is_replaced (c : nat) (w : world) (initial : ctx_state) :
  c_output (ctl w) = None ->
  liveAudioContext w = Some c ->
  contexts w !! c = Some closed ->
  AudioContext_ctor w = CtorCreates initial ->
  ∃ m, run (Call OpAcquireOutput :: settles initial ++ [Tick 0]) (boot w) = Some m
       ∧ pool m = [Done (Resolved (ROutput (length (outputs w))))]
       ∧ liveAudioContext (now m) = Some (length (contexts w))
       ∧ contexts (now m) = contexts w ++ [ready initial]
       ∧ audioContext <$> outputs (now m) !! length (outputs w) = Some (length (contexts w))
       ∧ c_output (ctl (now m)) = Some (length (outputs w)).
Proof.
  intros Hnone Hslot Hclosed Hctor.
  set (n := length (contexts w)).
  set (w0 := emit (EvNewContext n) (with_contexts (contexts w ++ [initial]) (emit EvFetch w))).
  assert (Hprov : ∃ w1,
            run (Call OpAcquireOutput :: settles initial) (boot w)
            = Some {| now := w1; pool := [AwaitContext (Resolved (Some n)) Direct] |}
            ∧ liveAudioContext w1 = Some n
            ∧ contexts w1 = contexts w ++ [ready initial]
            ∧ outputs w1 = outputs w).
  { assert (Hget : getSharedAudioContext w = create_context (emit EvFetch w)).
    { unfold getSharedAudioContext. cbn [liveAudioContext emit contexts].
      by rewrite Hslot, Hclosed. }
    destruct initial.
    - exists (publish n w0). split; [| done].
      assert (Hacq : acquireOutput Direct w
                     = (publish n w0, AwaitContext (Resolved (Some n)) Direct)).
      { unfold acquireOutput. rewrite Hnone, Hget. unfold create_context.
        cbn [AudioContext_ctor emit]. by rewrite Hctor. }
      by rewrite (run_step _ _ _ _ (step_call OpAcquireOutput (boot w) _ _ Hacq)).
    - exists (fst (provider_resumed n (emit (EvResume n) w0))). split.
      + assert (Hacq : acquireOutput Direct w = (emit (EvResume n) w0, AwaitResume n Direct)).
        { unfold acquireOutput. rewrite Hnone, Hget. unfold create_context.
          cbn [AudioContext_ctor emit]. by rewrite Hctor. }
        rewrite (run_step _ _ _ _ (step_call OpAcquireOutput (boot w) _ _ Hacq)).
        cbn [settles]. erewrite run_step; [| by apply step_resume_resolves]. done.
      + split; [done |]. split; [| done]. cbn. apply insert_snoc.
    - exists (publish n w0). split; [| done].
      assert (Hacq : acquireOutput Direct w
                     = (publish n w0, AwaitContext (Resolved (Some n)) Direct)).
      { unfold acquireOutput. rewrite Hnone, Hget. unfold create_context.
        cbn [AudioContext_ctor emit]. by rewrite Hctor. }
      by rewrite (run_step _ _ _ _ (step_call OpAcquireOutput (boot w) _ _ Hacq)). }
  destruct Hprov as (w1 & Hrun & Hslot1 & Hctx & Houts).
  destruct (acquireOutput_continue_builds n w1)
    as (w2 & rest & Hk & _ & _ & _ & Hout & Hon).
  assert (Hframe : liveAudioContext w2 = liveAudioContext w1 ∧ contexts w2 = contexts w1).
  { clear -Hk. unfold_code; split_cases; done. }
  destruct Hframe as [Hslot2 Hctx2]. rewrite Houts in *.
  exists {| now := w2; pool := [Done (Resolved (ROutput (length (outputs w))))] |}.
  split.
  { rewrite app_comm_cons, run_app, Hrun. cbn [mbind option_bind].
    erewrite run_step; [| eapply step_tick_context; [reflexivity | exact Hk]].
    done. }
  cbn [now pool]. rewrite Hslot2, Hctx2. by repeat split.
Qed.

Lemma closed_context_is_replaced_witness :
  let w := now (after [Call OpAcquireOutput; Tick 0; HostSetsState 0 closed;
                       HostSetsCtor (CtorCreates suspended)]
                  (fresh_world VisualizerRevision (CtorCreates running))) in
  let w2 := with_ctl (new_Controller VisualizerRevision) w in
  ∃ m, run [Call OpAcquireOutput; ResumeResolves 0; Tick 0] (boot w2) = Some m
       ∧ liveAudioContext (now m) = Some 1
       ∧ contexts (now m) = [closed; running].
Proof.
  intros w w2.
  destruct (closed_context_is_replaced 0 w2 suspended) as (m & Hrun & _ & Hslot & Hctx & _).
  - vm_compute; reflexivity.
  - vm_compute; reflexivity.
  - vm_compute; reflexivity.
  - vm_compute; reflexivity.
  - exists m. split; [exact Hrun |]. split; [exact Hslot | exact Hctx].
Defined.

(** The Controller that built its Output on the context that was closed
    since keeps that Output: its [acquireOutput()] replaces nothing. *)
Lemma closed_context_is_kept_with_output :
  let w := now (after [Call OpAcquireOutput; Tick 0; HostSetsState 0 closed]
                  (fresh_world VisualizerRevision (CtorCreates running))) in
  run [Call OpAcquireOutput] (boot w)
  = Some {| now := w; pool := [Done (Resolved (ROutput 0))] |}
  ∧ liveAudioContext w = Some 0
  ∧ contexts w = [closed].
Proof. vm_compute. repeat split. Qed.

(** ** Failure and retry *)

Lemma untouched_refl (w : world) : untouched w w.
Proof. by repeat split. Qed.

Lemma failing_step (w : world) (a : action) (m m1 : machine) (t : thread) :
  pool m = [t] -> direct t ->
  (failing t = true -> untouched w (now m)) ->
  is_call a = false ->
  step a m = Some m1 ->
  ∃ t1, pool m1 = [t1] ∧ direct t1 ∧ (failing t1 = true -> untouched w (now m1)).
Proof.
  intros Hpool Hd Hun Hcall Hstep.
  destruct a as [op|[|i]|[|i]|[|i] e|b|c s]; simpl in Hstep; try done;
    rewrite Hpool in Hstep; simpl in Hstep; try done.
  - destruct t as [c k|r k|r a|r]; try done. destruct k; [| done].
    destruct (acquireOutput_continue r (now m)) as [w1 r1] eqn:Hk. simplify_eq.
    simpl. eexists. split; [done |]. split; [done |].
    destruct r as [[c|]|e]; simpl in Hk; simplify_eq; simpl; try done;
      intros _; by apply Hun.
  - destruct t as [c k|r k|r a|r]; try done. destruct k; [| done].
    simpl in Hstep. simplify_eq. simpl. eexists. by repeat split.
  - destruct t as [c k|r k|r a|r]; try done. destruct k; [| done].
    simplify_eq. simpl. eexists. split; [done |]. split; [done |].
    intros _. by apply Hun.
  - simplify_eq. simpl. exists t. split; [done |]. split; [done |].
    intros Hf. destruct (Hun Hf) as (H1 & H2 & H3). by repeat split.
  - simplify_eq. simpl. exists t. split; [done |]. split; [done |].
    intros Hf. destruct (Hun Hf) as (H1 & H2 & H3). by repeat split.
Qed.

(** X9: an [acquireOutput()] that ends rejected has changed nothing the
    next attempt depends on: the Controller's fields, the Outputs and the
    context cached in the window are as before the call, so a later call
    starts afresh. *)
Theorem failed_acquisition_changes_nothing (w : world) (schedule : list action)
    (m : machine) (e : error) :
  no_calls schedule = true ->
  run (Call OpAcquireOutput :: schedule) (boot w) = Some m ->
  pool m = [Done (Rejected e)] ->
  ctl (now m) = ctl w
  ∧ outputs (now m) = outputs w
  ∧ liveAudioContext (now m) = liveAudioContext w.
Proof.
  intros Hnc Hrun Hpool.
  apply run_cons in Hrun as (m0 & Hstep & Hrun).
  assert (Hstart : ∃ t, pool m0 = [t] ∧ direct t ∧ (failing t = true -> untouched w (now m0))).
  { simpl in Hstep. destruct (acquireOutput Direct w) as [w1 t] eqn:Hacq. simplify_eq.
    exists t. split; [done |]. unfold acquireOutput in Hacq.
    unfold untouched. unfold_code; split_cases; repeat split; done. }
  assert (Hend : ∃ t, pool m = [t] ∧ direct t ∧ (failing t = true -> untouched w (now m))).
  { clear Hpool Hstep. revert m0 Hstart Hrun.
    induction schedule as [|a rest IH]; intros m0 Hstart Hrun.
    - simpl in Hrun. by simplify_eq.
    - apply run_cons in Hrun as (m1 & Hstep & Hrun). simpl in Hnc.
      apply andb_prop in Hnc as [Ha Hrest]. apply negb_true_iff in Ha.
      destruct Hstart as (t & Hp & Hd & Hun).
      apply (IH Hrest m1); [| done]. by apply (failing_step w a m0 m1 t). }
  destruct Hend as (t & Hp & _ & Hun). rewrite Hpool in Hp. simplify_eq.
  by apply Hun.
Qed.

Lemma failed_acquisition_changes_nothing_witness :
  let w := fresh_world AnalysisSetterRevision (CtorCreates suspended) in
  let m := after [Call OpAcquireOutput; ResumeRejects 0 (HostError 0); Tick 0] w in
  ctl (now m) = ctl w ∧ liveAudioContext (now m) = None
  ∧ pool (after [Call OpAcquireOutput; ResumeRejects 0 (HostError 0); Tick 0;
                 Call OpAcquireOutput; ResumeResolves 1; Tick 1] w)
    = [Done (Rejected (HostError 0)); Done (Resolved (ROutput 0))].
Proof.
  intros w m.
  destruct (failed_acquisition_changes_nothing w [ResumeRejects 0 (HostError 0); Tick 0]
              m (HostError 0)) as (Hctl & _ & Hslot).
  - reflexivity.
  - vm_compute; reflexivity.
  - vm_compute; reflexivity.
  - split; [exact Hctl |]. split; [rewrite Hslot; reflexivity | vm_compute; reflexivity].
Defined.

(** ** References stay valid *)

Lemma bounded_alter (n i : nat) (f : Output -> Output) (l : list Output) :
  (∀ out, audioContext (f out) = audioContext out) ->
  bounded n l -> bounded n (alter f i l).
Proof.
  intros Hf Hl. apply Forall_lookup. intros j out Hj.
  rewrite list_lookup_alter in Hj. case_decide; [subst |].
  - destruct (l !! j) as [out0|] eqn:Hout; simpl in Hj; simplify_eq.
    rewrite Hf. by apply (proj1 (Forall_lookup _ _) Hl j).
  - by apply (proj1 (Forall_lookup _ _) Hl j).
Qed.

Lemma bounded_snoc (n : nat) (x : Output) (l : list Output) :
  audioContext x < n -> bounded n l -> bounded n (l ++ [x]).
Proof. intros Hx Hl. apply Forall_app. split; [done | by constructor]. Qed.

Lemma bounded_mono (n n1 : nat) (l : list Output) :
  n ≤ n1 -> bounded n l -> bounded n1 l.
Proof.
  intros Hn Hl. eapply Forall_impl; [exact Hl |]. intros out Hout. simpl in *. lia.
Qed.

Lemma live_thread_grows (w w1 : world) (t : thread) :
  grows w w1 -> live_thread w t -> live_thread w1 t.
Proof. intros [H1 H2]. destruct t as [c k|[[c|]|e] k|[[o|]|e] a|[[]|e]]; simpl; lia. Qed.

Ltac solve_bounded :=
  repeat first
    [ done
    | apply bounded_alter; [by intros [] |]
    | apply bounded_snoc; [simpl; rewrite ?length_app, ?length_insert; simpl; lia |]
    | eapply bounded_mono; [| eassumption]; rewrite ?length_app, ?length_insert; simpl; lia ].

Ltac solve_live :=
  unfold live_world, grows in *; simpl in *;
  rewrite ?length_alter, ?length_app, ?length_insert in *; simpl in *;
  repeat match goal with
         | |- _ ∧ _ => split
         | |- ∀ _, _ => intro
         | |- _ -> _ => intro
         end;
  simplify_eq; simpl in *;
  rewrite ?length_alter, ?length_app, ?length_insert in *; simpl in *;
  try lia; try solve_bounded;
  try (match goal with H : ∀ o, _ = Some o -> _ |- _ => specialize (H _ eq_refl); lia end);
  try (match goal with
       | H : ∀ x, _ = Some x -> _, E : _ = Some _ |- _ => pose proof (H _ E); lia
       end).

Lemma call_live (op : operation) (w w1 : world) (t : thread) :
  live_world w -> call op w = (w1, t) ->
  live_world w1 ∧ grows w w1 ∧ live_thread w1 t.
Proof.
  intros (Ho & Hc & Hb) Hcall.
  destruct op; unfold_code; split_cases; solve_live.
Qed.

Lemma acquireOutput_continue_live (r r1 : settled (option nat)) (w w1 : world) :
  live_world w ->
  (∀ c, r = Resolved (Some c) -> c < length (contexts w)) ->
  acquireOutput_continue r w = (w1, r1) ->
  live_world w1 ∧ grows w w1 ∧ ∀ o, r1 = Resolved (Some o) -> o < length (outputs w1).
Proof.
  intros (Ho & Hc & Hb) Hr Hk.
  destruct r as [[c|]|e]; [specialize (Hr c eq_refl) | clear Hr | clear Hr];
    unfold_code; split_cases; solve_live.
Qed.

Lemma awaiter_continue_live (a : awaiter) (r : settled (option nat))
    (r1 : settled jsresult) (w w1 : world) :
  live_world w ->
  awaiter_continue a r w = (w1, r1) ->
  live_world w1 ∧ grows w w1 ∧ live_thread w1 (Done r1).
Proof.
  intros (Ho & Hc & Hb) Hk.
  destruct a, r as [[o|]|e]; unfold_code; split_cases; solve_live.
Qed.

Lemma live_pool_grows (w w1 : world) (l : list thread) :
  grows w w1 -> Forall (live_thread w) l -> Forall (live_thread w1) l.
Proof.
  intros Hg Hl. eapply Forall_impl; [exact Hl |].
  intros t. by apply live_thread_grows.
Qed.

Lemma live_step (a : action) (m m1 : machine) :
  live m -> step a m = Some m1 -> live m1.
Proof.
  intros [Hw Hpool] Hstep.
  destruct a as [op|i|i|i e|b|c s]; simpl in Hstep.
  - destruct (call op (now m)) as [w t] eqn:Hcall. simplify_eq.
    destruct (call_live _ _ _ _ Hw Hcall) as (H1 & H2 & H3).
    split; simpl; [done |].
    apply Forall_app. split; [by apply (live_pool_grows (now m)) | by constructor].
  - destruct (pool m !! i) as [t|] eqn:Hi; [| done].
    pose proof (proj1 (Forall_lookup _ _) Hpool i t Hi) as Ht.
    destruct t as [c k|r k|r a|r]; try done.
    + destruct (acquireOutput_continue r (now m)) as [w r1] eqn:Hk. simplify_eq.
      destruct (acquireOutput_continue_live r r1 (now m) w Hw) as (H1 & H2 & H3);
        [by intros c -> | done |].
      split; simpl; [done |].
      apply Forall_insert; [by apply (live_pool_grows (now m)) |].
      destruct k, r1 as [[o|]|]; simpl; try done; by apply H3.
    + destruct (awaiter_continue a r (now m)) as [w r1] eqn:Hk. simplify_eq.
      destruct (awaiter_continue_live _ _ _ _ _ Hw Hk) as (H1 & H2 & H3).
      split; simpl; [done |].
      apply Forall_insert; [by apply (live_pool_grows (now m)) | done].
  - destruct (pool m !! i) as [t|] eqn:Hi; [| done].
    pose proof (proj1 (Forall_lookup _ _) Hpool i t Hi) as Ht.
    destruct t as [c k|r k|r a|r]; try done. simpl in Hstep, Ht. simplify_eq.
    destruct Hw as (Ho & Hc & Hb).
    split; simpl.
    + unfold live_world; simpl. rewrite length_insert.
      split; [done | split; [by intros c1 [= <-] | done]].
    + apply Forall_insert; [| simpl; by rewrite length_insert].
      eapply Forall_impl; [exact Hpool |].
      intros t. apply live_thread_grows. unfold grows; simpl. by rewrite length_insert.
  - destruct (pool m !! i) as [t|] eqn:Hi; [| done].
    pose proof (proj1 (Forall_lookup _ _) Hpool i t Hi) as Ht.
    destruct t as [c k|r k|r a|r]; try done. simplify_eq.
    split; simpl; [done |]. by apply Forall_insert.
  - simplify_eq. by split.
  - simplify_eq. destruct Hw as (Ho & Hc & Hb).
    split; simpl.
    + unfold live_world; simpl. by rewrite length_insert.
    + eapply Forall_impl; [exact Hpool |].
      intros t. apply live_thread_grows. unfold grows; simpl. by rewrite length_insert.
Qed.

(** X10: nothing that the Controller hands out or keeps is made up.  From a
    page whose own references exist, whatever is called, however the calls
    interleave and whatever the host does to the contexts: the Controller's
    Output is one that [acquireOutput] built, on a context that the provider
    built; the context that the window caches is one of them; and a call of
    [acquireOutput] that resolved with an Output resolved with one that was
    built. *)
Theorem references_stay_valid (w : world) (schedule : list action) (m : machine) :
  live_world w ->
  run schedule (boot w) = Some m ->
  (∀ o, c_output (ctl (now m)) = Some o ->
        ∃ out, outputs (now m) !! o = Some out
               ∧ is_Some (contexts (now m) !! audioContext out))
  ∧ (∀ c, liveAudioContext (now m) = Some c -> is_Some (contexts (now m) !! c))
  ∧ (∀ i o, pool m !! i = Some (Done (Resolved (ROutput o))) ->
            is_Some (outputs (now m) !! o)).
Proof.
  intros Hw Hrun.
  assert (Hend : live m).
  { assert (Hstart : live (boot w)) by (split; [done | constructor]).
    revert Hrun Hstart. generalize (boot w).
    induction schedule as [|a rest IH]; intros m0 Hrun Hm0.
    - simpl in Hrun. by simplify_eq.
    - apply run_cons in Hrun as (m1 & Hstep & Hrun).
      apply (IH m1); [done |]. by apply (live_step a m0). }
  destruct Hend as [(Ho & Hc & Hb) Hpool]. split; [| split].
  - intros o Hout. apply Ho in Hout. apply lookup_lt_is_Some in Hout as [out Hout].
    exists out. split; [done |]. apply lookup_lt_is_Some.
    by apply (proj1 (Forall_lookup _ _) Hb o).
  - intros c Hslot. apply lookup_lt_is_Some. by apply Hc.
  - intros i o Hi. apply lookup_lt_is_Some.
    by apply (proj1 (Forall_lookup _ _) Hpool i _ Hi).
Qed.

Lemma references_stay_valid_witness :
  let m := after [Call OpAcquireOutput; ResumeResolves 0; HostSetsState 0 closed;
                  Tick 0; Call (OpSetVolume 0.5%float); Tick 1]
             (fresh_world VisualizerRevision (CtorCreates suspended)) in
  c_output (ctl (now m)) = Some 0
  ∧ is_Some (outputs (now m) !! 0)
  ∧ is_Some (contexts (now m) !! 0).
Proof.
  intros m.
  destruct (references_stay_valid (fresh_world VisualizerRevision (CtorCreates suspended))
              [Call OpAcquireOutput; ResumeResolves 0; HostSetsState 0 closed;
               Tick 0; Call (OpSetVolume 0.5%float); Tick 1] m)
    as (Ho & Hc & Hp).
  - split; [| split]; [by intros o | by intros c | constructor].
  - vm_compute; reflexivity.
  - split; [vm_compute; reflexivity |].
    split; [apply (Hp 0); vm_compute; reflexivity | apply Hc; vm_compute; reflexivity].
Defined.

(** ** Playing *)

(** X11: with an Output at hand, [playSound(name)] still plays a tick later,
    not during the call: the call itself does nothing that can be observed,
    and when it is resumed it calls [play] once, with the Controller's
    Output, without asking the window for a context. *)
Theorem playSound_with_output (name : string) (w : world) (o : nat) :
  audible w ->
  truthy (getSound name w) = true ->
  has_play name w = true ->
  c_output (ctl w) = Some o ->
  run [Call (OpPlaySound name)] (boot w)
  = Some {| now := w; pool := [AwaitOutput (Resolved (Some o)) (InPlaySound (getSound name w))] |}
  ∧ run [Call (OpPlaySound name); Tick 0] (boot w)
    = Some {| now := emit (play_event (getSound name w) o) w;
              pool := [Done (Resolved RUndefined)] |}.
Proof.
  intros Hvol Hsound Hplay Hout.
  assert (Hcall : call (OpPlaySound name) w
                  = (w, AwaitOutput (Resolved (Some o)) (InPlaySound (getSound name w)))).
  { unfold call, playSound. fold (getSound name w). rewrite Hvol, Hsound.
    by rewrite (acquireOutput_with_output _ _ o Hout). }
  split.
  - rewrite (run_step _ _ _ _ (step_call _ (boot w) _ _ Hcall)). reflexivity.
  - rewrite (run_step _ _ _ _ (step_call _ (boot w) _ _ Hcall)).
    erewrite run_step;
      [| eapply step_tick_output;
         [reflexivity
         | unfold awaiter_continue, invoke; cbn [now]; unfold has_play in Hplay;
           by rewrite Hplay]].
    reflexivity.
Qed.

Lemma playSound_with_output_witness :
  let w := fst (addSound "coin" coin
                  (now (after [Call OpAcquireOutput; Tick 0]
                          (fresh_world VisualizerRevision (CtorCreates running))))) in
  plays (now (after [Call (OpPlaySound "coin")] w)) = 0
  ∧ plays (now (after [Call (OpPlaySound "coin"); Tick 0] w)) = 1.
Proof.
  intros w.
  destruct (playSound_with_output "coin" w 0) as [H1 H2].
  - vm_compute; reflexivity.
  - vm_compute; reflexivity.
  - vm_compute; reflexivity.
  - vm_compute; reflexivity.
  - unfold after. rewrite H1, H2. split; vm_compute; reflexivity.
Defined.

Lemma playSound_acquires_cached (name : string) (w : world) (c : nat) :
  audible w ->
  truthy (getSound name w) = true ->
  c_output (ctl w) = None ->
  liveAudioContext w = Some c ->
  contexts w !! c ≠ Some closed ->
  ∃ w1 rest,
    run [Call (OpPlaySound name); Tick 0] (boot w)
    = Some {| now := w1;
              pool := [AwaitOutput (Resolved (Some (length (outputs w))))
                         (InPlaySound (getSound name w))] |}
    ∧ trace w1 = trace w ++ EvFetch :: EvNewOutput (length (outputs w)) c
                   :: EvSetVolume (length (outputs w)) (c_volume (ctl w)) :: rest
    ∧ count is_play rest = 0
    ∧ host w1 = host w
    ∧ c_output (ctl w1) = Some (length (outputs w))
    ∧ audioContext <$> outputs w1 !! length (outputs w) = Some c.
Proof.
  intros Hvol Hsound Hnone Hslot Hopen.
  assert (Hcall : call (OpPlaySound name) w
                  = (emit EvFetch w,
                     AwaitContext (Resolved (Some c)) (Via (InPlaySound (getSound name w))))).
  { unfold call, playSound. fold (getSound name w). rewrite Hvol, Hsound.
    unfold acquireOutput. rewrite Hnone.
    by rewrite (getSharedAudioContext_cached c w Hslot Hopen). }
  destruct (acquireOutput_continue_builds c (emit EvFetch w))
    as (w1 & rest & Hk & Htrace & Hrest & Hhost & Hout & Hctx).
  exists w1, rest. split.
  { rewrite (run_step _ _ _ _ (step_call _ (boot w) _ _ Hcall)).
    erewrite run_step; [| eapply step_tick_context; [reflexivity | exact Hk]].
    reflexivity. }
  cbn in Htrace. rewrite <- app_assoc in Htrace. by repeat split.
Qed.

(** X12: the first [playSound(name)] of a Controller with a positive volume,
    on a page that caches a context that is not closed: it fetches that
    context, builds the Controller's Output on it, sets the stored volume on
    the Output, and then calls [play] once with that Output. *)
Theorem playSound_first_call (name : string) (w : world) (c : nat) :
  audible w ->
  truthy (getSound name w) = true ->
  has_play name w = true ->
  c_output (ctl w) = None ->
  liveAudioContext w = Some c ->
  contexts w !! c ≠ Some closed ->
  ∃ m rest,
    run [Call (OpPlaySound name); Tick 0; Tick 0] (boot w) = Some m
    ∧ pool m = [Done (Resolved RUndefined)]
    ∧ c_output (ctl (now m)) = Some (length (outputs w))
    ∧ audioContext <$> outputs (now m) !! length (outputs w) = Some c
    ∧ trace (now m)
      = trace w ++ EvFetch :: EvNewOutput (length (outputs w)) c
          :: EvSetVolume (length (outputs w)) (c_volume (ctl w))
          :: rest ++ [play_event (getSound name w) (length (outputs w))]
    ∧ count is_play rest = 0.
Proof.
  intros Hvol Hsound Hplay Hnone Hslot Hopen.
  destruct (playSound_acquires_cached name w c Hvol Hsound Hnone Hslot Hopen)
    as (w1 & rest & Hrun & Htrace & Hrest & Hhost & Hout & Hctx).
  exists {| now := emit (play_event (getSound name w) (length (outputs w))) w1;
            pool := [Done (Resolved RUndefined)] |}, rest.
  split.
  { change [Call (OpPlaySound name); Tick 0; Tick 0]
      with ([Call (OpPlaySound name); Tick 0] ++ [Tick 0]).
    rewrite run_app, Hrun. cbn [mbind option_bind].
    erewrite run_step;
      [| eapply step_tick_output;
         [reflexivity
         | unfold awaiter_continue, invoke; cbn [now]; unfold has_play in Hplay;
           by rewrite Hhost, Hplay]].
    reflexivity. }
  cbn. rewrite Htrace, <- app_assoc. by repeat split.
Qed.

Lemma playSound_first_call_witness :
  ∃ m, run [Call (OpPlaySound "coin"); Tick 0; Tick 0] (boot (cached_world VisualizerRevision))
       = Some m
       ∧ c_output (ctl (now m)) = Some 1
       ∧ audioContext <$> outputs (now m) !! 1 = Some 0.
Proof.
  destruct (playSound_first_call "coin" (cached_world VisualizerRevision) 0)
    as (m & rest & Hrun & _ & Hout & Hctx & _).
  - vm_compute; reflexivity.
  - vm_compute; reflexivity.
  - vm_compute; reflexivity.
  - vm_compute; reflexivity.
  - vm_compute; reflexivity.
  - vm_compute; discriminate.
  - exists m. split; [exact Hrun |]. split; [exact Hout | exact Hctx].
Defined.

(** X13: [playSound(name)] on a name whose value is truthy but has no
    callable [play] (a name inherited from [Object.prototype], such as
    [toString], or any value stored by [addSound] that is not a Sound):
    the Output is acquired and kept all the same, then the call is rejected
    with a TypeError, and nothing is played. *)
Theorem playSound_not_a_sound (name : string) (w : world) (c : nat) :
  audible w ->
  truthy (getSound name w) = true ->
  has_play name w = false ->
  c_output (ctl w) = None ->
  liveAudioContext w = Some c ->
  contexts w !! c ≠ Some closed ->
  ∃ m,
    run [Call (OpPlaySound name); Tick 0; Tick 0] (boot w) = Some m
    ∧ pool m = [Done (Rejected (TypeError "not a function"))]
    ∧ c_output (ctl (now m)) = Some (length (outputs w))
    ∧ plays (now m) = plays w.
Proof.
  intros Hvol Hsound Hplay Hnone Hslot Hopen.
  destruct (playSound_acquires_cached name w c Hvol Hsound Hnone Hslot Hopen)
    as (w1 & rest & Hrun & Htrace & Hrest & Hhost & Hout & Hctx).
  exists {| now := w1; pool := [Done (Rejected (TypeError "not a function"))] |}.
  split.
  { change [Call (OpPlaySound name); Tick 0; Tick 0]
      with ([Call (OpPlaySound name); Tick 0] ++ [Tick 0]).
    rewrite run_app, Hrun. cbn [mbind option_bind].
    erewrite run_step;
      [| eapply step_tick_output;
         [reflexivity
         | unfold awaiter_continue, invoke; cbn [now]; unfold has_play in Hplay;
           by rewrite Hhost, Hplay]].
    reflexivity. }
  cbn. split; [done |]. split; [done |].
  unfold plays. rewrite Htrace, count_app. cbn. lia.
Qed.

Lemma playSound_not_a_sound_witness :
  ∃ m, run [Call (OpPlaySound "toString"); Tick 0; Tick 0]
         (boot (cached_world VisualizerRevision)) = Some m
       ∧ pool m = [Done (Rejected (TypeError "not a function"))]
       ∧ c_output (ctl (now m)) = Some 1.
Proof.
  destruct (playSound_not_a_sound "toString" (cached_world VisualizerRevision) 0)
    as (m & Hrun & Hpool & Hout & _).
  - vm_compute; reflexivity.
  - vm_compute; reflexivity.
  - vm_compute; reflexivity.
  - vm_compute; reflexivity.
  - vm_compute; reflexivity.
  - vm_compute; discriminate.
  - exists m. split; [exact Hrun |]. split; [exact Hpool | exact Hout].
Defined.

(** ** Visualization *)

Lemma enableVisualization_awaits (w : world) (o : nat) :
  klass (ctl w) = VisualizerRevision ->
  c_output (ctl w) = Some o ->
  call OpEnableVisualization w = (w, AwaitOutput (Resolved (Some o)) InEnableVisualization).
Proof.
  intros Hrev Hout. unfold call, enableVisualization. rewrite Hrev.
  by rewrite (acquireOutput_with_output _ _ o Hout).
Qed.

(** X14: [enableVisualization()] on a Controller that has its Output: the
    node the Controller already keeps is connected again, no new one is
    made; a Controller without a node makes one on the Output's context,
    keeps it and connects it.  Either way one [connectAnalysis] is called
    and the Output carries the node. *)
Theorem enableVisualization_attaches (w : world) (o : nat) (out : Output) (node : value) :
  klass (ctl w) = VisualizerRevision ->
  c_output (ctl w) = Some o ->
  outputs w !! o = Some out ->
  (truthy (c_analysis (ctl w)) = true ∧ node = c_analysis (ctl w))
  ∨ (truthy (c_analysis (ctl w)) = false
     ∧ new_Visualizer (host w) (audioContext out) = inl node) ->
  ∃ m, run [Call OpEnableVisualization; Tick 0] (boot w) = Some m
       ∧ pool m = [Done (Resolved RUndefined)]
       ∧ c_analysis (ctl (now m)) = node
       ∧ trace (now m) = trace w ++ [connect_event o node]
       ∧ has_node node (now m) o.
Proof.
  intros Hrev Hout Hlook Hnode.
  pose proof (enableVisualization_awaits w o Hrev Hout) as Hcall.
  assert (Hhere : ∀ l : list Output, l !! o = Some out ->
            analysisNode <$> alter (Output_connectAnalysis node) o l !! o = Some node).
  { intros l Hl. apply field_alter_here; [by intros [] |]. by apply (lookup_lt_Some _ _ out). }
  destruct (awaiter_continue InEnableVisualization (Resolved (Some o)) w) as [w1 r1] eqn:Hk.
  exists {| now := w1; pool := [Done r1] |}. split.
  { rewrite (run_step _ _ _ _ (step_call _ (boot w) _ _ Hcall)).
    erewrite run_step; [| eapply step_tick_output; [reflexivity | exact Hk]].
    reflexivity. }
  unfold awaiter_continue, enableVisualization_continue, output_connectAnalysis in Hk.
  rewrite Hlook in Hk. cbn in Hk. unfold has_node.
  destruct Hnode as [[Htruthy ->] | [Hfalsy Hnew]].
  - rewrite Htruthy in Hk. simplify_eq. cbn. repeat split; by try apply Hhere.
  - rewrite Hfalsy, Hnew in Hk. simplify_eq. cbn. repeat split; by try apply Hhere.
Qed.

Lemma enableVisualization_attaches_witness :
  ∃ m, run [Call OpEnableVisualization; Tick 0] (boot (ready_world VisualizerRevision)) = Some m
       ∧ c_analysis (ctl (now m)) = visualizer
       ∧ has_node visualizer (now m) 0.
Proof.
  destruct (enableVisualization_attaches (ready_world VisualizerRevision) 0
              (Output_setVolume 1%float (new_Output 0)) visualizer)
    as (m & Hrun & _ & Hnode & _ & Hhas).
  - vm_compute; reflexivity.
  - vm_compute; reflexivity.
  - vm_compute; reflexivity.
  - right. split; vm_compute; reflexivity.
  - exists m. split; [exact Hrun |]. split; [exact Hnode | exact Hhas].
Defined.

(** X15: when [new Visualizer(...)] throws, [enableVisualization()] does not
    fail: it warns on the console and resolves; the Controller keeps no
    node and the Output is left as it was. *)
Theorem enableVisualization_unavailable (w : world) (o : nat) (out : Output) (e : error) :
  klass (ctl w) = VisualizerRevision ->
  c_output (ctl w) = Some o ->
  outputs w !! o = Some out ->
  truthy (c_analysis (ctl w)) = false ->
  new_Visualizer (host w) (audioContext out) = inr e ->
  run [Call OpEnableVisualization; Tick 0] (boot w)
  = Some {| now := emit unavailable w; pool := [Done (Resolved RUndefined)] |}.
Proof.
  intros Hrev Hout Hlook Hfalsy Hnew.
  pose proof (enableVisualization_awaits w o Hrev Hout) as Hcall.
  assert (Hk : awaiter_continue InEnableVisualization (Resolved (Some o)) w
               = (emit unavailable w, Resolved RUndefined)).
  { unfold awaiter_continue, enableVisualization_continue. rewrite Hlook. cbn.
    by rewrite Hfalsy, Hnew. }
  rewrite (run_step _ _ _ _ (step_call _ (boot w) _ _ Hcall)).
  erewrite run_step; [| eapply step_tick_output; [reflexivity | exact Hk]].
  reflexivity.
Qed.

Lemma enableVisualization_unavailable_witness :
  let w := with_host deaf_host (ready_world VisualizerRevision) in
  c_analysis (ctl (now (after [Call OpEnableVisualization; Tick 0] w))) = VNull
  ∧ trace (now (after [Call OpEnableVisualization; Tick 0] w)) = trace w ++ [unavailable].
Proof.
  intros w. unfold after.
  rewrite (enableVisualization_unavailable w 0 (Output_setVolume 1%float (new_Output 0))
             (HostError 0)).
  - split; vm_compute; reflexivity.
  - vm_compute; reflexivity.
  - vm_compute; reflexivity.
  - vm_compute; reflexivity.
  - vm_compute; reflexivity.
  - vm_compute; reflexivity.
Defined.

(** X16: [disableVisualization()] takes the node off the Output but the
    Controller keeps it, so that the next [enableVisualization()] connects
    the same node again. *)
Theorem disableVisualization_keeps_node (w : world) (o : nat) (out : Output) :
  klass (ctl w) = VisualizerRevision ->
  c_output (ctl w) = Some o ->
  outputs w !! o = Some out ->
  truthy (c_analysis (ctl w)) = true ->
  ∃ m1 m,
    run [Call OpDisableVisualization] (boot w) = Some m1
    ∧ has_node VNull (now m1) o
    ∧ c_analysis (ctl (now m1)) = c_analysis (ctl w)
    ∧ run [Call OpEnableVisualization; Tick 1] m1 = Some m
    ∧ has_node (c_analysis (ctl w)) (now m) o
    ∧ c_analysis (ctl (now m)) = c_analysis (ctl w)
    ∧ trace (now m)
      = trace w ++ [EvDisconnectAnalysis o; connect_event o (c_analysis (ctl w))].
Proof.
  intros Hrev Hout Hlook Htruthy.
  set (w1 := output_disconnectAnalysis o w).
  assert (Hdis : call OpDisableVisualization w = (w1, Done (Resolved RUndefined))).
  { unfold call, disableVisualization. by rewrite Hrev, Hout. }
  assert (Hlen : o < length (outputs w)) by by apply (lookup_lt_Some _ _ out).
  pose proof (enableVisualization_awaits w1 o Hrev Hout) as Hcall.
  set (w2 := output_connectAnalysis o (c_analysis (ctl w)) w1).
  exists {| now := w1; pool := [Done (Resolved RUndefined)] |},
         {| now := w2; pool := [Done (Resolved RUndefined); Done (Resolved RUndefined)] |}.
  split; [by rewrite (run_step _ _ _ _ (step_call _ (boot w) _ _ Hdis)) |].
  split; [unfold has_node; cbn; apply field_alter_here; [by intros [] | done] |].
  split; [done |].
  split.
  { erewrite run_step; [| by apply step_call].
    erewrite run_step;
      [| eapply step_tick_output;
         [reflexivity
         | unfold awaiter_continue, enableVisualization_continue; cbn [now];
           change (c_analysis (ctl w1)) with (c_analysis (ctl w)); by rewrite Htruthy]].
    reflexivity. }
  split; [unfold has_node; cbn; apply field_alter_here;
          [by intros [] | by rewrite length_alter] |].
  split; [done |]. cbn. by rewrite <- app_assoc.
Qed.

Lemma disableVisualization_keeps_node_witness :
  let w := now (after [Call OpEnableVisualization; Tick 0] (ready_world VisualizerRevision)) in
  has_node VNull (now (after [Call OpDisableVisualization] w)) 0
  ∧ has_node visualizer
      (now (after [Call OpDisableVisualization; Call OpEnableVisualization; Tick 1] w)) 0.
Proof.
  intros w.
  destruct (disableVisualization_keeps_node w 0
              (Output_connectAnalysis visualizer (Output_setVolume 1%float (new_Output 0))))
    as (m1 & m & Hrun1 & Hoff & _ & Hrun & Hon & _).
  - vm_compute; reflexivity.
  - vm_compute; reflexivity.
  - vm_compute; reflexivity.
  - vm_compute; reflexivity.
  - unfold after.
    change [Call OpDisableVisualization; Call OpEnableVisualization; Tick 1]
      with ([Call OpDisableVisualization] ++ [Call OpEnableVisualization; Tick 1]).
    rewrite run_app, Hrun1. cbn [mbind option_bind default]. rewrite Hrun.
    split; [exact Hoff | exact Hon].
Defined.

(** ** After the first Output *)

Lemma step_with_output (a : action) (m m1 : machine) :
  is_Some (c_output (ctl (now m))) ->
  step a m = Some m1 ->
  fetches (now m1) = fetches (now m)
  ∧ length (contexts (now m1)) = length (contexts (now m))
  ∧ is_Some (c_output (ctl (now m1))).
Proof.
  intros [o Hout] Hstep.
  destruct a as [op|i|i|i e|b|c s]; simpl in Hstep.
  - destruct (call op (now m)) as [w t] eqn:Hcall. simplify_eq. cbn [now].
    destruct op; crunch.
  - destruct (pool m !! i) as [t|] eqn:Hi; [| done].
    destruct t as [c k|r k|r a|r]; try done.
    + destruct (acquireOutput_continue r (now m)) as [w r1] eqn:Hk. simplify_eq. cbn [now].
      destruct r as [[c|]|e]; crunch.
    + destruct (awaiter_continue a r (now m)) as [w r1] eqn:Hk. simplify_eq. cbn [now].
      destruct a, r as [[o1|]|e]; crunch.
  - destruct (pool m !! i) as [t|] eqn:Hi; [| done].
    destruct t as [c k|r k|r a|r]; try done. simpl in Hstep. simplify_eq.
    count_events. rewrite length_insert. by repeat split.
  - destruct (pool m !! i) as [t|] eqn:Hi; [| done].
    destruct t as [c k|r k|r a|r]; try done. simplify_eq. by repeat split.
  - simplify_eq. by repeat split.
  - simplify_eq. cbn. rewrite length_insert. by repeat split.
Qed.

(** X17: once the Controller holds an Output it never asks the window for a
    context again and no context is created, whatever is called afterwards
    and whatever calls were still pending; and it never goes back to
    holding none. *)
Theorem no_fetch_with_output (m0 m : machine) (o : nat) (schedule : list action) :
  c_output (ctl (now m0)) = Some o ->
  run schedule m0 = Some m ->
  fetches (now m) = fetches (now m0)
  ∧ length (contexts (now m)) = length (contexts (now m0))
  ∧ is_Some (c_output (ctl (now m))).
Proof.
  intros Hout Hrun.
  assert (Hsome : is_Some (c_output (ctl (now m0)))) by by exists o.
  clear Hout. revert m0 Hrun Hsome.
  induction schedule as [|a rest IH]; intros m0 Hrun Hsome.
  - simpl in Hrun. by simplify_eq.
  - apply run_cons in Hrun as (m1 & Hstep & Hrun).
    destruct (step_with_output a m0 m1 Hsome Hstep) as (H1 & H2 & H3).
    destruct (IH m1 Hrun H3) as (H4 & H5 & H6).
    split; [congruence |]. split; [congruence | done].
Qed.

Lemma no_fetch_with_output_witness :
  let m0 := after [Call OpAcquireOutput; Call (OpSetVolume 0.5%float); Tick 0]
              (fresh_world VisualizerRevision (CtorCreates running)) in
  let schedule := [Call OpAcquireOutput; Tick 1; Call OpEnableVisualization; Tick 3; Tick 1] in
  fetches (now m0) = 2
  ∧ constructions (now (default m0 (run schedule m0))) = 2
  ∧ fetches (now (default m0 (run schedule m0))) = 2.
Proof.
  intros m0 schedule.
  destruct (no_fetch_with_output m0 (default m0 (run schedule m0)) 0 schedule) as (Hf & _).
  - vm_compute; reflexivity.
  - vm_compute; reflexivity.
  - split; [vm_compute; reflexivity |].
    split; [vm_compute; reflexivity | rewrite Hf; vm_compute; reflexivity].
Defined.

(** ** Volume with an Output at hand *)

(** X18: with an Output at hand, [setVolume(v)] stores [v] during the call
    but touches the Output only a tick later: until the call is resumed the
    Output keeps its gain, then [output.setVolume(v)] is called once, and no
    context is fetched. *)
Theorem setVolume_with_output (v : float) (w : world) (o : nat) (out : Output) :
  c_output (ctl w) = Some o ->
  outputs w !! o = Some out ->
  ∃ m1 m,
    run [Call (OpSetVolume v)] (boot w) = Some m1
    ∧ c_volume (ctl (now m1)) = v
    ∧ outputs (now m1) = outputs w
    ∧ trace (now m1) = trace w
    ∧ run [Tick 0] m1 = Some m
    ∧ pool m = [Done (Resolved RUndefined)]
    ∧ has_gain v (now m) o
    ∧ trace (now m) = trace w ++ [EvSetVolume o v].
Proof.
  intros Hout Hlook.
  set (w1 := with_ctl (upd_volume v (ctl w)) w).
  assert (Hcall : call (OpSetVolume v) w
                  = (w1, AwaitOutput (Resolved (Some o)) (InSetVolume v))).
  { unfold call, setVolume. by rewrite (acquireOutput_with_output _ w1 o Hout). }
  exists {| now := w1; pool := [AwaitOutput (Resolved (Some o)) (InSetVolume v)] |},
         {| now := output_setVolume o v w1; pool := [Done (Resolved RUndefined)] |}.
  split; [by rewrite (run_step _ _ _ _ (step_call _ (boot w) _ _ Hcall)) |].
  repeat (split; [done |]).
  split; [| done]. unfold has_gain. cbn.
  apply field_alter_here; [by intros [] |]. by apply (lookup_lt_Some _ _ out).
Qed.

Lemma setVolume_with_output_witness :
  let w := ready_world VisualizerRevision in
  gain <$> outputs (now (after [Call (OpSetVolume 0.5%float)] w)) !! 0 = Some 1%float
  ∧ has_gain 0.5%float (now (after [Call (OpSetVolume 0.5%float); Tick 0] w)) 0.
Proof.
  intros w.
  destruct (setVolume_with_output 0.5%float w 0 (Output_setVolume 1%float (new_Output 0)))
    as (m1 & m & Hrun1 & _ & Houts & _ & Hrun & _ & Hgain & _).
  - vm_compute; reflexivity.
  - vm_compute; reflexivity.
  - unfold after.
    change [Call (OpSetVolume 0.5%float); Tick 0]
      with ([Call (OpSetVolume 0.5%float)] ++ [Tick 0]).
    rewrite run_app, Hrun1. cbn [mbind option_bind from_option id]. rewrite Hrun, Houts.
    split; [vm_compute; reflexivity | exact Hgain].
Defined.

(** ** What is never done *)

Lemma step_never_disconnects (a : action) (m m1 : machine) :
  klass (ctl (now m)) = AnalysisSetterRevision ->
  step a m = Some m1 ->
  klass (ctl (now m1)) = AnalysisSetterRevision
  ∧ disconnections (now m1) = disconnections (now m).
Proof.
  intros Hrev Hstep. unfold disconnections.
  destruct a as [op|i|i|i e|b|c s]; simpl in Hstep.
  - destruct (call op (now m)) as [w t] eqn:Hcall. simplify_eq. cbn [now].
    destruct op; unfold_code; split_cases; cbn; rewrite ?count_app; simpl;
      try congruence; (split; [done | lia]).
  - destruct (pool m !! i) as [t|] eqn:Hi; [| done].
    destruct t as [c k|r k|r a|r]; try done.
    + destruct (acquireOutput_continue r (now m)) as [w r1] eqn:Hk. simplify_eq. cbn [now].
      destruct r as [[c|]|e]; unfold_code; split_cases; cbn; rewrite ?count_app; simpl;
        try congruence; (split; [done | lia]).
    + destruct (awaiter_continue a r (now m)) as [w r1] eqn:Hk. simplify_eq. cbn [now].
      destruct a, r as [[o1|]|e]; unfold_code; split_cases; cbn; rewrite ?count_app; simpl;
        try congruence; (split; [done | lia]).
  - destruct (pool m !! i) as [t|] eqn:Hi; [| done].
    destruct t as [c k|r k|r a|r]; try done. simpl in Hstep. simplify_eq.
    cbn. rewrite count_app. simpl. split; [done | lia].
  - destruct (pool m !! i) as [t|] eqn:Hi; [| done].
    destruct t as [c k|r k|r a|r]; try done. by simplify_eq.
  - by simplify_eq.
  - by simplify_eq.
Qed.

(** X19: the revision with the [analysis] setter never calls
    [disconnectAnalysis()] on an Output, whatever is called and whatever
    node is set, [null] included: a node is only ever replaced by
    [connectAnalysis]. *)
Theorem analysis_never_disconnected (w : world) (schedule : list action) (m : machine) :
  klass (ctl w) = AnalysisSetterRevision ->
  run schedule (boot w) = Some m ->
  disconnections (now m) = disconnections w.
Proof.
  intros Hrev Hrun.
  assert (Hgen : ∀ m0, klass (ctl (now m0)) = AnalysisSetterRevision ->
            run schedule m0 = Some m -> disconnections (now m) = disconnections (now m0)).
  { clear. induction schedule as [|a rest IH]; intros m0 Hrev Hrun.
    - simpl in Hrun. by simplify_eq.
    - apply run_cons in Hrun as (m1 & Hstep & Hrun).
      destruct (step_never_disconnects a m0 m1 Hrev Hstep) as [H1 H2].
      rewrite (IH m1 H1 Hrun). exact H2. }
  by apply (Hgen (boot w)).
Qed.

Lemma analysis_never_disconnected_witness :
  let m := after [Call (OpSetAnalysis visualizer); Call OpAcquireOutput; Tick 1;
                  Call (OpSetAnalysis VNull); Call OpDisableVisualization]
             (fresh_world AnalysisSetterRevision (CtorCreates running)) in
  has_node VNull (now m) 0 ∧ disconnections (now m) = 0.
Proof.
  intros m. split; [vm_compute; reflexivity |].
  apply (analysis_never_disconnected
           (fresh_world AnalysisSetterRevision (CtorCreates running))
           [Call (OpSetAnalysis visualizer); Call OpAcquireOutput; Tick 1;
            Call (OpSetAnalysis VNull); Call OpDisableVisualization]).
  - vm_compute; reflexivity.
  - vm_compute; reflexivity.
Defined.

(** ** Nodes of the test suite *)

Import Mock.







